(** * MusicPlayer: the logic of [src/MainWindow.cpp]

    A shallow embedding of the search, catalogue and navigation logic of the
    player's main window, together with the properties its specification
    states about them.

    Conventions.
    - A [QString] is the sequence of its code units.  The development covers
      the Latin-1 range, one [ascii] per code unit; [QChar::toLower],
      [QChar::isSpace] and the regular-expression class [\s] are the toolkit's
      functions restricted to that range.
    - C++ [int] values (rows, counts, [repeatMode_]) are [Z]; the sentinel
      [-1] of the source (an invalid row, "no next track") is kept as it is.
    - The widgets are reduced to the values the slots read back from them:
      the rows of the item model, the filter tokens of the proxy, the current
      row of the list view, the source and the playback state of the media
      player.  The duration, the seek bar and the time label are kept in a
      record of their own, [SeekBar], and the text of the repeat button is
      carried next to the window by [cycleRepeatButton]; the other labels,
      the icons, the volume and the style sheet are left out. *)

From Stdlib Require Import ZArith NArith Ascii String List Bool Lia.
From Stdlib Require DecimalString DecimalPos DecimalN.
From stdpp Require Import base list gmap strings.

Local Set Warnings "-register-all".
Local Open Scope Z_scope.

(** ** Strings *)

Module QStr.

Abbreviation QString := (list ascii).

(** [QStringLiteral "abc"]: the code units of a literal. *)
Definition QStringLiteral (s : string) : QString := list_ascii_of_string s.

Definition space : ascii := Ascii.ascii_of_N 32.

(** [QString::isEmpty]. *)
Definition isEmpty (s : QString) : bool :=
  match s with [] => true | _ => false end.

(** [QChar::isSpace]: U+0020, U+0009..U+000D, U+0085 and U+00A0. *)
Definition isSpace (c : ascii) : bool :=
  let u := N_of_ascii c in
  ((u =? 32) || ((9 <=? u) && (u <=? 13)) || (u =? 133) || (u =? 160))%N.

(** The class [\s] of [QRegularExpression] without
    [UseUnicodePropertiesOption]: the ASCII white space only. *)
Definition isRegexSpace (c : ascii) : bool :=
  let u := N_of_ascii c in
  ((u =? 32) || ((9 <=? u) && (u <=? 13)))%N.

(** [QChar::toLower] on Latin-1: A..Z and U+00C0..U+00DE (U+00D7, the
    multiplication sign, apart) move up by 32. *)
Definition toLowerChar (c : ascii) : ascii :=
  let u := N_of_ascii c in
  if (((65 <=? u) && (u <=? 90))
      || ((192 <=? u) && (u <=? 222) && negb (u =? 215)))%N
  then ascii_of_N (u + 32) else c.

(** [QString::toLower]. *)
Definition toLower (s : QString) : QString := map toLowerChar s.

(** [QString::replace(QChar before, QChar after)]. *)
Definition replaceChar (before after : ascii) (s : QString) : QString :=
  map (fun c => if Ascii.eqb c before then after else c) s.

(** [QString::replace(QRegularExpression("\\s+"), " ")]: every maximal run of
    [\s] characters becomes one U+0020. *)
Fixpoint replaceSpaceRuns (s : QString) : QString :=
  match s with
  | [] => []
  | c :: r =>
      if isRegexSpace c then
        match r with
        | [] => [space]
        | c' :: _ => if isRegexSpace c' then replaceSpaceRuns r
                     else space :: replaceSpaceRuns r
        end
      else c :: replaceSpaceRuns r
  end.

(** [QString::simplified]: white space ([QChar::isSpace]) is removed from both
    ends and every internal run of it becomes one U+0020.  [skipSpaces] is the
    first inner loop of the toolkit's routine, [simplifiedFrom] copies words
    and puts one space between two of them. *)
Fixpoint skipSpaces (s : QString) : QString :=
  match s with
  | [] => []
  | c :: r => if isSpace c then skipSpaces r else s
  end.

Fixpoint simplifiedFrom (s : QString) : QString :=
  match s with
  | [] => []
  | c :: r =>
      if isSpace c then
        match r with
        | [] => []
        | c' :: _ => if isSpace c' then simplifiedFrom r
                     else space :: simplifiedFrom r
        end
      else c :: simplifiedFrom r
  end.

Definition simplified (s : QString) : QString := simplifiedFrom (skipSpaces s).

(** [QString::startsWith] and [QString::contains], case sensitive. *)
Fixpoint startsWith (s p : QString) {struct p} : bool :=
  match p with
  | [] => true
  | a :: p' =>
      match s with
      | [] => false
      | b :: s' => Ascii.eqb a b && startsWith s' p'
      end
  end.

Fixpoint contains (s t : QString) : bool :=
  startsWith s t
  || match s with
     | [] => false
     | _ :: r => contains r t
     end.

(** [QString::split(sep)] keeps the empty parts; with [Qt::SkipEmptyParts]
    they are dropped from the result. *)
Fixpoint split (sep : ascii) (s : QString) : list QString :=
  match s with
  | [] => [[]]
  | c :: r =>
      if Ascii.eqb c sep then [] :: split sep r
      else match split sep r with
           | w :: ws => (c :: w) :: ws
           | [] => [[c]]
           end
  end.

Definition splitSkipEmptyParts (sep : ascii) (s : QString) : list QString :=
  List.filter (fun part => negb (isEmpty part)) (split sep s).

(** [QStringList::join]. *)
Fixpoint join (sep : QString) (parts : list QString) : QString :=
  match parts with
  | [] => []
  | [w] => w
  | w :: ws => w ++ sep ++ join sep ws
  end.

End QStr.
Import QStr.

(** ** Text normalisation (MainWindow.cpp, [normalizeText]) *)

Definition normalizeText (text : QString) : QString :=
  let text := toLower text in
  let text := replaceChar "_" space text in
  let text := replaceChar "-" space text in
  let text := replaceSpaceRuns text in
  simplified text.


(** ** File names ([QFileInfo]) *)

Module QFileInfo.

(** [QFileInfo::fileName]: what follows the last ['/']. *)
Definition fileName (filePath : QString) : QString :=
  List.last (split "/" filePath) [].

(** [QFileInfo::completeBaseName]: the file name up to, and without, its last
    ['.']; the whole name when it has none. *)
Definition completeBaseName (filePath : QString) : QString :=
  match split "." (fileName filePath) with
  | [w] => w
  | ws => join ["."%char] (removelast ws)
  end.

(** [QFileInfo::absolutePath], for the absolute paths a directory iterator
    hands out: the path without the file name and without the ['/'] before
    it; the root directory is ["/"]. *)
Definition absolutePath (filePath : QString) : QString :=
  match join ["/"%char] (removelast (split "/" filePath)) with
  | [] => if startsWith filePath ["/"%char] then ["/"%char] else []
  | dir => dir
  end.

End QFileInfo.

(** ** The file system seen by [QDirIterator] *)

(** The entries of a directory: regular files and directories, by name.
    Symbolic links and special files are not part of the model. *)
Inductive FsEntry : Type :=
  | FsFile (name : QString)
  | FsDir (name : QString) (entries : list FsEntry).

Module QDirIterator.

(** A name filter of [QDir] is a wildcard: ['*'] stands for any run of
    characters of a file name and ['?'] for one; the other characters of the
    filters used here stand for themselves.  Without [QDir::CaseSensitive]
    letters match in either case. *)
Fixpoint wildcardMatch (pattern name : QString) : bool :=
  match pattern with
  | [] => isEmpty name
  | p :: pattern' =>
      if Ascii.eqb p "*" then
        (fix star (s : QString) : bool :=
           wildcardMatch pattern' s
           || match s with
              | [] => false
              | _ :: s' => star s'
              end) name
      else
        match name with
        | [] => false
        | c :: name' =>
            (Ascii.eqb p "?" || Ascii.eqb (toLowerChar p) (toLowerChar c))
            && wildcardMatch pattern' name'
        end
  end.

(** [QFileInfo::isHidden] on Unix: the name starts with a dot. *)
Definition isHidden (name : QString) : bool := startsWith name ["."%char].

Definition filePathIn (dir name : QString) : QString := dir ++ "/"%char :: name.

(** The entries listed for the filter [QDir::Files] and the flag
    [QDirIterator::Subdirectories]: the files whose name passes a name
    filter, in the directory and below it.  As [QDir::Hidden] is not among
    the filters, hidden files are not listed and hidden directories are not
    entered.  Entries come in directory order, a subdirectory's files at the
    place of the subdirectory. *)
Fixpoint listEntry (nameFilters : list QString) (dir : QString) (e : FsEntry)
  : list QString :=
  match e with
  | FsFile name =>
      if negb (isHidden name)
         && existsb (fun pattern => wildcardMatch pattern name) nameFilters
      then [filePathIn dir name] else []
  | FsDir name entries =>
      if isHidden name then []
      else flat_map (listEntry nameFilters (filePathIn dir name)) entries
  end.

Definition listAll (nameFilters : list QString) (path : QString)
    (entries : list FsEntry) : list QString :=
  flat_map (listEntry nameFilters path) entries.

End QDirIterator.

(** ** Random numbers ([QRandomGenerator]) *)

(** [QRandomGenerator::bounded(int highest)] scales the 32-bit word the
    generator produced into the range from 0 up to, not including,
    [highest]. *)
Definition bounded (generated highest : Z) : Z :=
  ((generated mod 2 ^ 32) * highest) / 2 ^ 32.

(** ** The main window *)

(** A row of [model_]: the item's text and its data under [kFilePathRole]
    and [kSearchRole]. *)
Record Item : Type := mkItem {
  itemText : QString;
  itemFilePath : QString;
  itemSearchKey : QString;
}.

Inductive PlaybackState : Type := StoppedState | PlayingState | PausedState.

Inductive MediaStatus : Type :=
  | NoMedia | LoadingMedia | LoadedMedia | StalledMedia
  | BufferingMedia | BufferedMedia | EndOfMedia | InvalidMedia.

Record MainWindow : Type := mkMainWindow {
  model_ : list Item;               (* the rows of the QStandardItemModel *)
  trackSet_ : gset QString;
  filterText_ : QString;            (* TrackFilterProxy::filterText_ *)
  tokens_ : list QString;           (* TrackFilterProxy::tokens_ *)
  currentIndex_ : Z;                (* listView_->currentIndex().row() *)
  playerSource_ : QString;          (* player_->source(), a local file *)
  playerState_ : PlaybackState;     (* player_->playbackState() *)
  shuffleEnabled_ : bool;
  repeatMode_ : Z;
  currentFilePath_ : QString;
  playHistory_ : list QString;
}.

(** The window as the constructor leaves it before the first scan. *)
Definition initialWindow : MainWindow :=
  {| model_ := []; trackSet_ := ∅; filterText_ := []; tokens_ := [];
     currentIndex_ := -1; playerSource_ := []; playerState_ := StoppedState;
     shuffleEnabled_ := false; repeatMode_ := 0;
     currentFilePath_ := []; playHistory_ := [] |}.

(** *** The filter proxy *)

(** [TrackFilterProxy::setFilterText]. *)
Definition setFilterText (text : QString) (w : MainWindow) : MainWindow :=
  let filterText := normalizeText text in
  {| model_ := model_ w; trackSet_ := trackSet_ w;
     filterText_ := filterText;
     tokens_ := splitSkipEmptyParts space filterText;
     currentIndex_ := currentIndex_ w; playerSource_ := playerSource_ w;
     playerState_ := playerState_ w; shuffleEnabled_ := shuffleEnabled_ w;
     repeatMode_ := repeatMode_ w; currentFilePath_ := currentFilePath_ w;
     playHistory_ := playHistory_ w |}.

(** [TrackFilterProxy::filterAcceptsRow], on the row's item. *)
Definition filterAcceptsRow (tokens : list QString) (item : Item) : bool :=
  match tokens with
  | [] => true
  | _ :: _ =>
      let key := itemSearchKey item in
      if isEmpty key then true
      else forallb (fun token => contains key token) tokens
  end.

(** The proxy sorts on the item text without regard to case
    ([setSortCaseSensitivity(Qt::CaseInsensitive)], [sort(0)]):
    [QString::compare] on the case-folded code points.  U+00B5 folds to
    U+03BC, the other Latin-1 characters to their lower case. *)
Definition caseFolded (c : ascii) : N :=
  if (N_of_ascii c =? 181)%N then 956%N else N_of_ascii (toLowerChar c).

Fixpoint compareCaseInsensitive (a b : QString) : comparison :=
  match a, b with
  | [], [] => Eq
  | [], _ :: _ => Lt
  | _ :: _, [] => Gt
  | x :: a', y :: b' =>
      match (caseFolded x ?= caseFolded y)%N with
      | Eq => compareCaseInsensitive a' b'
      | o => o
      end
  end.

Definition lessThan (l r : Item) : bool :=
  match compareCaseInsensitive (itemText l) (itemText r) with
  | Lt => true
  | _ => false
  end.

(** Rows with equal texts stay in the order of the model. *)
Fixpoint insertRow (x : Item) (rows : list Item) : list Item :=
  match rows with
  | [] => [x]
  | y :: rows' => if lessThan y x then y :: insertRow x rows' else x :: rows
  end.

Definition sortRows (rows : list Item) : list Item := fold_right insertRow [] rows.

(** The rows of [filter_], in the order the view shows them. *)
Definition proxyRows (w : MainWindow) : list Item :=
  sortRows (List.filter (filterAcceptsRow (tokens_ w)) (model_ w)).

(** [filter_->rowCount()]. *)
Definition rowCount (w : MainWindow) : Z := Z.of_nat (length (proxyRows w)).

(** [filter_->index(row, 0)] is valid for the rows of the proxy only; the
    item is the one [mapToSource] leads to. *)
Definition isValid (w : MainWindow) (row : Z) : bool :=
  (0 <=? row) && (row <? rowCount w).

Definition itemAt (w : MainWindow) (row : Z) : option Item :=
  if isValid w row then nth_error (proxyRows w) (Z.to_nat row) else None.

(** *** The catalogue *)

Definition kFilters : list QString :=
  map QStringLiteral ["*.mp3"; "*.flac"; "*.wav"; "*.ogg"; "*.m4a"; "*.aac"]%string.

(** The item [addTrack] builds for a path. *)
Definition trackItem (filePath : QString) : Item :=
  {| itemText := QFileInfo.completeBaseName filePath;
     itemFilePath := filePath;
     itemSearchKey :=
       normalizeText (QFileInfo.completeBaseName filePath ++ [space]
                      ++ QFileInfo.fileName filePath ++ [space]
                      ++ QFileInfo.absolutePath filePath) |}.

(** [MainWindow::addTrack]. *)
Definition addTrack (filePath : QString) (w : MainWindow) : MainWindow :=
  if decide (filePath ∈ trackSet_ w) then w
  else
    {| model_ := model_ w ++ [trackItem filePath];
       trackSet_ := {[ filePath ]} ∪ trackSet_ w;
       filterText_ := filterText_ w; tokens_ := tokens_ w;
       currentIndex_ := currentIndex_ w; playerSource_ := playerSource_ w;
       playerState_ := playerState_ w; shuffleEnabled_ := shuffleEnabled_ w;
       repeatMode_ := repeatMode_ w; currentFilePath_ := currentFilePath_ w;
       playHistory_ := playHistory_ w |}.

(** [model_->rowCount()], the number [updateCounts] shows. *)
Definition count (w : MainWindow) : Z := Z.of_nat (length (model_ w)).

(** [MainWindow::scanFolder]: [addTrack] on every path the iterator hands
    out.  The closing [filter_->sort(0)] leaves the window's fields as they
    are; the order of the proxy is [proxyRows]. *)
Definition scanFolder (path : QString) (entries : list FsEntry)
    (w : MainWindow) : MainWindow :=
  fold_left (fun w filePath => addTrack filePath w)
            (QDirIterator.listAll kFilters path entries) w.

(** [MainWindow::addFolder], for the directory the dialog returned (empty
    when it was cancelled); the constructor's scan of the music directory
    has the same guard. *)
Definition addFolder (dir : QString) (entries : list FsEntry)
    (w : MainWindow) : MainWindow :=
  if isEmpty dir then w else scanFolder dir entries w.

(** *** Playback *)

(** The loop that closes [playTrack]: the first row of the proxy that holds
    the path. *)
Fixpoint findRow (rows : list Item) (filePath : QString) (row : Z) : option Z :=
  match rows with
  | [] => None
  | item :: rows' =>
      if decide (itemFilePath item = filePath) then Some row
      else findRow rows' filePath (row + 1)
  end.

(** [MainWindow::playTrack]. *)
Definition playTrack (filePath : QString) (recordHistory : bool)
    (w : MainWindow) : MainWindow :=
  if isEmpty filePath then w
  else
    {| model_ := model_ w; trackSet_ := trackSet_ w;
       filterText_ := filterText_ w; tokens_ := tokens_ w;
       currentIndex_ :=
         match findRow (proxyRows w) filePath 0 with
         | Some row => row
         | None => currentIndex_ w
         end;
       playerSource_ := filePath;
       playerState_ := PlayingState;
       shuffleEnabled_ := shuffleEnabled_ w; repeatMode_ := repeatMode_ w;
       currentFilePath_ := filePath;
       playHistory_ :=
         if recordHistory
            && (match playHistory_ w with [] => true | _ => false end
                || negb (bool_decide (List.last (playHistory_ w) [] = filePath)))
         then playHistory_ w ++ [filePath]
         else playHistory_ w |}.

(** [MainWindow::playIndex], the proxy index given by its row. *)
Definition playIndex (row : Z) (w : MainWindow) : MainWindow :=
  match itemAt w row with
  | None => w
  | Some item => playTrack (itemFilePath item) true w
  end.

(** [MainWindow::playSelected]. *)
Definition playSelected (w : MainWindow) : MainWindow :=
  playIndex (currentIndex_ w) w.

Definition setPlayerState (s : PlaybackState) (w : MainWindow) : MainWindow :=
  {| model_ := model_ w; trackSet_ := trackSet_ w;
     filterText_ := filterText_ w; tokens_ := tokens_ w;
     currentIndex_ := currentIndex_ w; playerSource_ := playerSource_ w;
     playerState_ := s;
     shuffleEnabled_ := shuffleEnabled_ w; repeatMode_ := repeatMode_ w;
     currentFilePath_ := currentFilePath_ w; playHistory_ := playHistory_ w |}.

(** [MainWindow::playPause]. *)
Definition playPause (w : MainWindow) : MainWindow :=
  match playerState_ w with
  | PlayingState => setPlayerState PausedState w
  | _ =>
      if negb (isEmpty (playerSource_ w)) then setPlayerState PlayingState w
      else if isValid w (currentIndex_ w) then playSelected w
      else if rowCount w >? 0 then playIndex 0 w
      else w
  end.

(** [MainWindow::stop]. *)
Definition stop (w : MainWindow) : MainWindow := setPlayerState StoppedState w.

(** The value of [nextRow] when [playNext] reaches its last line;
    [generated] is the word the random generator produces. *)
Definition nextRow (generated : Z) (w : MainWindow) : Z :=
  let total := rowCount w in
  let nextRow :=
    if shuffleEnabled_ w then bounded generated total
    else currentIndex_ w + 1 in
  if nextRow >=? total
  then (if repeatMode_ w =? 1 then 0 else -1)
  else nextRow.

(** [MainWindow::playNext]. *)
Definition playNext (generated : Z) (w : MainWindow) : MainWindow :=
  if rowCount w =? 0 then w
  else if negb (nextRow generated w =? -1) then playIndex (nextRow generated w) w
  else w.

(** The value of [prevRow] when [playPrevious] reaches its last line. *)
Definition prevRow (w : MainWindow) : Z :=
  let prevRow := currentIndex_ w - 1 in
  if prevRow <? 0
  then (if repeatMode_ w =? 1 then rowCount w - 1 else -1)
  else prevRow.

Definition setPlayHistory (history : list QString) (w : MainWindow) : MainWindow :=
  {| model_ := model_ w; trackSet_ := trackSet_ w;
     filterText_ := filterText_ w; tokens_ := tokens_ w;
     currentIndex_ := currentIndex_ w; playerSource_ := playerSource_ w;
     playerState_ := playerState_ w;
     shuffleEnabled_ := shuffleEnabled_ w; repeatMode_ := repeatMode_ w;
     currentFilePath_ := currentFilePath_ w; playHistory_ := history |}.

(** [MainWindow::playPrevious]. *)
Definition playPrevious (w : MainWindow) : MainWindow :=
  if (2 <=? length (playHistory_ w))%nat then
    let w := setPlayHistory (removelast (playHistory_ w)) w in
    playTrack (List.last (playHistory_ w) []) false w
  else if negb (prevRow w =? -1) then playIndex (prevRow w) w
  else w.

(** [MainWindow::handleMediaStatus]. *)
Definition handleMediaStatus (status : MediaStatus) (generated : Z)
    (w : MainWindow) : MainWindow :=
  match status with
  | EndOfMedia =>
      if repeatMode_ w =? 2 then playTrack (currentFilePath_ w) false w
      else playNext generated w
  | _ => w
  end.

(** [MainWindow::toggleShuffle]. *)
Definition toggleShuffle (w : MainWindow) : MainWindow :=
  {| model_ := model_ w; trackSet_ := trackSet_ w;
     filterText_ := filterText_ w; tokens_ := tokens_ w;
     currentIndex_ := currentIndex_ w; playerSource_ := playerSource_ w;
     playerState_ := playerState_ w;
     shuffleEnabled_ := negb (shuffleEnabled_ w); repeatMode_ := repeatMode_ w;
     currentFilePath_ := currentFilePath_ w; playHistory_ := playHistory_ w |}.

(** [MainWindow::cycleRepeat]: 0 is Off, 1 is All, 2 is One. *)
Definition cycleRepeat (w : MainWindow) : MainWindow :=
  {| model_ := model_ w; trackSet_ := trackSet_ w;
     filterText_ := filterText_ w; tokens_ := tokens_ w;
     currentIndex_ := currentIndex_ w; playerSource_ := playerSource_ w;
     playerState_ := playerState_ w;
     shuffleEnabled_ := shuffleEnabled_ w;
     repeatMode_ := Z.rem (repeatMode_ w + 1) 3;
     currentFilePath_ := currentFilePath_ w; playHistory_ := playHistory_ w |}.

(** [MainWindow::onSearchTextChanged]. *)
Definition onSearchTextChanged (text : QString) (w : MainWindow) : MainWindow :=
  setFilterText text w.

(** The list view moves its current index: a click or a key of the user, or
    the view following the proxy when rows come and go. *)
Definition setCurrentIndex (row : Z) (w : MainWindow) : MainWindow :=
  {| model_ := model_ w; trackSet_ := trackSet_ w;
     filterText_ := filterText_ w; tokens_ := tokens_ w;
     currentIndex_ := row; playerSource_ := playerSource_ w;
     playerState_ := playerState_ w;
     shuffleEnabled_ := shuffleEnabled_ w; repeatMode_ := repeatMode_ w;
     currentFilePath_ := currentFilePath_ w; playHistory_ := playHistory_ w |}.

(** *** Events and reachable states *)

(** What the event loop delivers to the window: the signals connected in the
    constructor, with the values the toolkit supplies with them (the folder
    picked in the dialog and what it holds, the word of the random
    generator).  [CurrentChanged] is the view moving its current index and
    [PlaybackStateChanged] the player changing state on its own, at the end
    of the media or on an error; their slots only redraw labels.  The signals
    of the position, the duration, the seek bar and the volume reach slots
    that touch none of the fields of [MainWindow]; they are left out. *)
Inductive Event : Type :=
  | AddFolderClicked (dir : QString) (entries : list FsEntry)
  | SearchTextChanged (text : QString)
  | CurrentChanged (row : Z)
  | DoubleClicked
  | PlayPauseClicked
  | StopClicked
  | NextClicked (generated : Z)
  | PrevClicked
  | ShuffleClicked
  | RepeatClicked
  | MediaStatusChanged (status : MediaStatus) (generated : Z)
  | PlaybackStateChanged (state : PlaybackState).

Definition handle (e : Event) (w : MainWindow) : MainWindow :=
  match e with
  | AddFolderClicked dir entries => addFolder dir entries w
  | SearchTextChanged text => onSearchTextChanged text w
  | CurrentChanged row => setCurrentIndex row w
  | DoubleClicked => playSelected w
  | PlayPauseClicked => playPause w
  | StopClicked => stop w
  | NextClicked generated => playNext generated w
  | PrevClicked => playPrevious w
  | ShuffleClicked => toggleShuffle w
  | RepeatClicked => cycleRepeat w
  | MediaStatusChanged status generated => handleMediaStatus status generated w
  | PlaybackStateChanged state => setPlayerState state w
  end.

(** The states of a run: the constructor scans the music directory (when
    there is one), then events follow one another. *)
Inductive reachable : MainWindow -> Prop :=
  | reachable_start musicDir entries :
      reachable (addFolder musicDir entries initialWindow)
  | reachable_event e w :
      reachable w -> reachable (handle e w).

(** ** Notions used in the statements *)

(** The characters [normalizeText] leaves in place: lower case, and neither of
    the two separators. *)
Definition plainChar (c : ascii) : Prop :=
  toLowerChar c = c /\ Ascii.eqb c "_" = false /\ Ascii.eqb c "-" = false.

Definition separatorsToSpace (c : ascii) : ascii :=
  let c := if Ascii.eqb c "_" then space else c in
  if Ascii.eqb c "-" then space else c.

Definition startsWithSpace (s : QString) : bool :=
  match s with
  | [] => false
  | c :: _ => isSpace c
  end.

(** Every white-space character of [s] is a U+0020 that stands before a
    character which is no white space. *)
Fixpoint singleSpaced (s : QString) : bool :=
  match s with
  | [] => true
  | c :: r =>
      (if isSpace c
       then Ascii.eqb c space && negb (isEmpty r) && negb (startsWithSpace r)
       else true)
      && singleSpaced r
  end.

(** [t] occurs in [s] as a substring. *)
Definition isSubstring (t s : QString) : Prop := exists l r, s = l ++ t ++ r.

(** The window of the search scenario, and a row with a given search key. *)
Definition songTitleQuery : MainWindow :=
  setFilterText (QStringLiteral "song title") initialWindow.

Definition rowWithKey (key : QString) : Item :=
  {| itemText := QStringLiteral "untitled";
     itemFilePath := QStringLiteral "/music/untitled.mp3";
     itemSearchKey := key |}.

(** The file paths of the catalogue, in the order of the model. *)
Definition filePaths (w : MainWindow) : list QString :=
  map itemFilePath (model_ w).

(** The exit [addTrack] takes: [false] for the early return on a known path,
    [true] when it runs to its end and appends a row.  The C++ function is
    [void]; this is the value the specification's [add] reports. *)
Definition addTrack_appends (filePath : QString) (w : MainWindow) : bool :=
  negb (bool_decide (filePath ∈ trackSet_ w)).

(** [trackSet_] is the set of the paths of the rows, none of them twice. *)
Definition catalogueInvariant (w : MainWindow) : Prop :=
  NoDup (filePaths w) /\ forall p, p ∈ trackSet_ w <-> In p (filePaths w).

(** The same path in two consecutive entries of the history. *)
Definition consecutiveDuplicate (history : list QString) : Prop :=
  exists before p after, history = before ++ p :: p :: after.

(** What a slot may do to the history: keep it, drop its last entry, or
    append a non-empty path that differs from its last entry. *)
Inductive historyStep (history : list QString) : list QString -> Prop :=
  | history_kept : historyStep history history
  | history_trimmed : historyStep history (removelast history)
  | history_appended p :
      p <> [] ->
      history = [] \/ List.last history [] <> p ->
      historyStep history (history ++ [p]).

Definition historyInvariant (w : MainWindow) : Prop :=
  ~ consecutiveDuplicate (playHistory_ w)
  /\ Forall (fun p => p <> []) (playHistory_ w).

(** [QFileInfo::suffix]: what follows the last ['.'] of the name; empty when
    the name has no ['.']. *)
Definition suffix (name : QString) : QString :=
  match split "." name with
  | [_] => []
  | parts => List.last parts []
  end.

(** The extensions of the specification's allow-list. *)
Definition allowedExtensions : list QString :=
  map QStringLiteral ["mp3"; "flac"; "wav"; "ogg"; "m4a"; "aac"]%string.

(** The extension of the name is in the allow-list, whatever its case. *)
Definition hasAllowedExtension (name : QString) : bool :=
  existsb (fun ext => bool_decide (toLower (suffix name) = ext)) allowedExtensions.

(** A regular file below a directory: its path, its name, and whether the
    file or a directory on the way down to it is hidden. *)
Record RegularFile : Type := mkRegularFile {
  regularPath : QString;
  regularName : QString;
  regularHidden : bool;
}.

(** Every regular file in and below an entry of directory [dir]. *)
Fixpoint regularFiles (dir : QString) (hidden : bool) (e : FsEntry)
  : list RegularFile :=
  match e with
  | FsFile name =>
      [ {| regularPath := QDirIterator.filePathIn dir name;
           regularName := name;
           regularHidden := hidden || QDirIterator.isHidden name |} ]
  | FsDir name entries =>
      flat_map (regularFiles (QDirIterator.filePathIn dir name)
                             (hidden || QDirIterator.isHidden name))
               entries
  end.

Definition regularFilesUnder (rootPath : QString) (entries : list FsEntry)
  : list RegularFile :=
  flat_map (regularFiles rootPath false) entries.

(** The files a scan adds: not hidden, with an allowed extension. *)
Definition scanned (f : RegularFile) : bool :=
  negb (regularHidden f) && hasAllowedExtension (regularName f).

(** A pattern without wildcard characters. *)
Definition literalPattern (p : QString) : Prop :=
  Forall (fun c => Ascii.eqb c "*" = false /\ Ascii.eqb c "?" = false) p.

(** No row of the catalogue has an empty path. *)
Definition pathsInvariant (w : MainWindow) : Prop :=
  Forall (fun item => itemFilePath item <> []) (model_ w).

(** ** Scenarios of the specification *)

(** A music folder with three tracks, scanned when the window starts. *)
Definition threeTracks : MainWindow :=
  addFolder (QStringLiteral "/music")
    [FsFile (QStringLiteral "alpha.mp3");
     FsFile (QStringLiteral "bravo.mp3");
     FsFile (QStringLiteral "charlie.mp3")]
    initialWindow.

(** The last of the three rows is the current one; repeat is Off, then All. *)
Definition atLastTrack : MainWindow := handle (CurrentChanged 2) threeTracks.

Definition atLastTrackRepeatAll : MainWindow := handle RepeatClicked atLastTrack.

(** The same place with shuffle switched on and repeat Off. *)
Definition atLastTrackShuffled : MainWindow := handle ShuffleClicked atLastTrack.

(** The three tracks played one after the other: the first by a double
    click, the others with the next button. *)
Definition playedThree : MainWindow :=
  handle (NextClicked 0)
    (handle (NextClicked 0)
       (handle DoubleClicked (handle (CurrentChanged 0) threeTracks))).

(** The third track playing with repeat One. *)
Definition playedThreeRepeatOne : MainWindow :=
  handle RepeatClicked (handle RepeatClicked playedThree).

(** A query that no track of the folder matches, before anything played. *)
Definition allFilteredOut : MainWindow :=
  handle (SearchTextChanged (QStringLiteral "zzz")) threeTracks.

(** The directory of the scan scenario, and one with a hidden audio file. *)
Definition scanScenario : list FsEntry :=
  [FsFile (QStringLiteral "song.mp3");
   FsFile (QStringLiteral "SONG.MP3");
   FsFile (QStringLiteral "notes.txt")].

Definition hiddenScenario : list FsEntry :=
  [FsFile (QStringLiteral ".intro.mp3")].

(** ** The rest of the window: position, duration and the seek bar *)

(** [QString::arg(qlonglong a, int fieldWidth, int base, QChar fillChar)]
    for base 10, width 2 and the fill ['0'], as [formatTime] calls it: the
    decimal digits of the number, with a ['0'] before a single digit. *)
Definition decimal (n : Z) : QString :=
  list_ascii_of_string (DecimalString.NilZero.string_of_int (Z.to_int n)).

Definition argWidth2 (n : Z) : QString :=
  let text := decimal n in
  if (length text <? 2)%nat then "0"%char :: text else text.

(** [MainWindow::formatTime]; [/] and [%] of C++ round towards zero. *)
Definition formatTime (ms : Z) : QString :=
  let s := Z.quot ms 1000 in
  argWidth2 (Z.quot s 60) ++ ":"%char :: argWidth2 (Z.rem s 60).

(** A [QSlider]: its range, its value and whether it is enabled. *)
Record QSlider : Type := mkQSlider {
  sliderMinimum : Z;
  sliderMaximum : Z;
  sliderValue : Z;
  sliderEnabled : bool;
}.

(** [QAbstractSlider::setValue] keeps the value within the range. *)
Definition setValue (value : Z) (s : QSlider) : QSlider :=
  {| sliderMinimum := sliderMinimum s; sliderMaximum := sliderMaximum s;
     sliderValue := Z.max (sliderMinimum s) (Z.min (sliderMaximum s) value);
     sliderEnabled := sliderEnabled s |}.

Definition setEnabled (enabled : bool) (s : QSlider) : QSlider :=
  {| sliderMinimum := sliderMinimum s; sliderMaximum := sliderMaximum s;
     sliderValue := sliderValue s; sliderEnabled := enabled |}.

Definition kSeekSliderRange : Z := 1000.

(** The values of [qint64] and [int]; a result outside wraps around. *)
Definition toInt64 (z : Z) : Z := (z + 2 ^ 63) mod 2 ^ 64 - 2 ^ 63.

Definition toInt (z : Z) : Z := (z + 2 ^ 31) mod 2 ^ 32 - 2 ^ 31.

(** The members of the window that follow the position of the media:
    [durationMs_], the seek bar and the text of the time label. *)
Record SeekBar : Type := mkSeekBar {
  durationMs_ : Z;
  seekSlider_ : QSlider;
  timeLabel_ : QString;
}.

(** As [setupUi] leaves them: the seek bar is a new slider, with the range
    0..99 of the toolkit (no [setRange] follows), disabled; the label shows
    "00:00 / 00:00". *)
Definition initialSeekBar : SeekBar :=
  {| durationMs_ := 0;
     seekSlider_ := {| sliderMinimum := 0; sliderMaximum := 99;
                       sliderValue := 0; sliderEnabled := false |};
     timeLabel_ := QStringLiteral "00:00 / 00:00" |}.

(** [MainWindow::updatePosition].  The signals of the slider are blocked
    around [setValue], so [seek] is not called back. *)
Definition updatePosition (position : Z) (b : SeekBar) : SeekBar :=
  {| durationMs_ := durationMs_ b;
     seekSlider_ :=
       if durationMs_ b >? 0
       then setValue
              (toInt (Z.quot (toInt64 (position * kSeekSliderRange))
                             (durationMs_ b)))
              (seekSlider_ b)
       else seekSlider_ b;
     timeLabel_ :=
       formatTime position ++ QStringLiteral " / " ++ formatTime (durationMs_ b) |}.

(** [MainWindow::updateDuration]. *)
Definition updateDuration (duration : Z) (b : SeekBar) : SeekBar :=
  {| durationMs_ := duration;
     seekSlider_ := setEnabled (duration >? 0) (seekSlider_ b);
     timeLabel_ := timeLabel_ b |}.

(** [MainWindow::seek]: the position asked of the player, if any. *)
Definition seek (value : Z) (b : SeekBar) : option Z :=
  if durationMs_ b >? 0
  then Some (Z.quot (toInt64 (durationMs_ b * value)) kSeekSliderRange)
  else None.

(** The user moves the handle of the seek bar: the slider takes the value
    and [valueChanged] reaches [seek]. *)
Definition moveSeekSlider (value : Z) (b : SeekBar) : SeekBar :=
  {| durationMs_ := durationMs_ b;
     seekSlider_ := setValue value (seekSlider_ b);
     timeLabel_ := timeLabel_ b |}.

(** The states of the seek bar in a run: the player reports positions and
    durations, the user moves the handle. *)
Inductive seekBarReachable : SeekBar -> Prop :=
  | seekBar_start : seekBarReachable initialSeekBar
  | seekBar_position position b :
      seekBarReachable b -> seekBarReachable (updatePosition position b)
  | seekBar_duration duration b :
      seekBarReachable b -> seekBarReachable (updateDuration duration b)
  | seekBar_moved value b :
      seekBarReachable b -> seekBarReachable (moveSeekSlider value b).

(** The text [cycleRepeat] puts on the repeat button. *)
Definition repeatButtonText (repeatMode : Z) : QString :=
  if repeatMode =? 0 then QStringLiteral "Off"
  else if repeatMode =? 1 then QStringLiteral "All"
  else QStringLiteral "One".

(** ** Further notions used in the statements *)

(** The words of a text: its maximal runs of characters that are no white
    space. *)
Definition consWord (c : ascii) (words : list QString) : list QString :=
  match words with
  | word :: words' => (c :: word) :: words'
  | [] => [[c]]
  end.

Fixpoint wordsOf (s : QString) : list QString :=
  match s with
  | [] => []
  | c :: r =>
      if isSpace c then wordsOf r
      else if startsWithSpace r || isEmpty r then [c] :: wordsOf r
           else consWord c (wordsOf r)
  end.

(** [a] is a prefix of [b]. *)
Definition isPrefix {A} (a b : list A) : Prop := exists rest, b = a ++ rest.

(** What playing keeps true: the player's source and the last recorded path
    are the current file, and every recorded path is in the catalogue. *)
Definition playbackInvariant (w : MainWindow) : Prop :=
  playerSource_ w = currentFilePath_ w
  /\ List.last (playHistory_ w) [] = currentFilePath_ w
  /\ Forall (fun p => In p (filePaths w)) (playHistory_ w).

(** The window after a sequence of events. *)
Definition run (events : list Event) (w : MainWindow) : MainWindow :=
  fold_left (fun w e => handle e w) events w.

(** The number a text of decimal digits stands for; leading zeros count for
    nothing, any other character makes the text no number. *)
Definition parseDecimal (s : QString) : option Z :=
  option_map Z.of_uint
    (DecimalString.NilEmpty.uint_of_string (string_of_list_ascii s)).

(** The capital of a small letter of Latin-1 that has its capital in
    Latin-1 (a..z and U+00E0..U+00FE, the division sign apart); any other
    character is left as it is.  Two texts are the same up to case when they
    agree once their small letters are written as capitals. *)
Definition upperCaseLetter (c : ascii) : ascii :=
  let u := N_of_ascii c in
  if (((97 <=? u) && (u <=? 122))
      || ((224 <=? u) && (u <=? 254) && negb (u =? 247)))%N
  then ascii_of_N (u - 32) else c.

Definition sameUpToCase (a b : QString) : Prop :=
  map upperCaseLetter a = map upperCaseLetter b.

(** No row of the catalogue has an empty search key. *)
Definition keysInvariant (w : MainWindow) : Prop :=
  Forall (fun item => itemSearchKey item <> []) (model_ w).

(** The text [setupUi] puts on the repeat button. *)
Definition initialRepeatButtonText : QString := QStringLiteral "R".

(** [MainWindow::cycleRepeat] on the window together with the text of the
    repeat button: the mode moves on and the button is given the name of the
    new mode, whatever it showed before. *)
Definition cycleRepeatButton (state : MainWindow * QString)
  : MainWindow * QString :=
  let w := cycleRepeat (fst state) in
  (w, repeatButtonText (repeatMode_ w)).

Example normalizeText_ex1 :
  normalizeText (QStringLiteral "  My-Song__Title  (LIVE).MP3 ")
  = QStringLiteral "my song title (live).mp3".
Proof. reflexivity. Qed.

(** ** Properties of the string operations *)

Section StringFacts.

Local Ltac by_cases_on c :=
  destruct c as [[] [] [] [] [] [] [] []]; vm_compute; intuition congruence.

Lemma toLowerChar_idem c : toLowerChar (toLowerChar c) = toLowerChar c.
Proof. by_cases_on c. Qed.

Lemma isRegexSpace_isSpace c : isRegexSpace c = true -> isSpace c = true.
Proof. by_cases_on c. Qed.

Lemma isSpace_space : isSpace space = true.
Proof. reflexivity. Qed.


Lemma plainChar_space : plainChar space.
Proof. repeat split. Qed.

Lemma plainChar_lowered c : plainChar (separatorsToSpace (toLowerChar c)).
Proof. unfold plainChar. by_cases_on c. Qed.

Lemma separators_lower_underscore c :
  separatorsToSpace (toLowerChar (if Ascii.eqb c "_" then space else c))
  = separatorsToSpace (toLowerChar c).
Proof. by_cases_on c. Qed.

Lemma separators_lower_hyphen c :
  separatorsToSpace (toLowerChar (if Ascii.eqb c "-" then space else c))
  = separatorsToSpace (toLowerChar c).
Proof. by_cases_on c. Qed.

Lemma replace_separators (s : QString) :
  replaceChar "-" space (replaceChar "_" space (toLower s))
  = map (fun c => separatorsToSpace (toLowerChar c)) s.
Proof.
  unfold replaceChar, toLower. rewrite !map_map. reflexivity.
Qed.

Lemma map_fixed {A} (f : A -> A) (l : list A) :
  Forall (fun x => f x = x) l -> map f l = l.
Proof. induction 1 as [|x l Hx _ IH]; simpl; congruence. Qed.

(** *** Unfolding equations *)

Lemma simplifiedFrom_space c r :
  isSpace c = true ->
  simplifiedFrom (c :: r)
  = match r with
    | [] => []
    | c' :: _ => if isSpace c' then simplifiedFrom r else space :: simplifiedFrom r
    end.
Proof. intros H. simpl. rewrite H. reflexivity. Qed.

Lemma simplifiedFrom_word c r :
  isSpace c = false -> simplifiedFrom (c :: r) = c :: simplifiedFrom r.
Proof. intros H. simpl. rewrite H. reflexivity. Qed.

Lemma replaceSpaceRuns_space c r :
  isRegexSpace c = true ->
  replaceSpaceRuns (c :: r)
  = match r with
    | [] => [space]
    | c' :: _ => if isRegexSpace c' then replaceSpaceRuns r
                 else space :: replaceSpaceRuns r
    end.
Proof. intros H. simpl. rewrite H. reflexivity. Qed.

Lemma replaceSpaceRuns_word c r :
  isRegexSpace c = false -> replaceSpaceRuns (c :: r) = c :: replaceSpaceRuns r.
Proof. intros H. simpl. rewrite H. reflexivity. Qed.

(** *** Which characters survive *)

Lemma Forall_replaceSpaceRuns (P : ascii -> Prop) s :
  P space -> Forall P s -> Forall P (replaceSpaceRuns s).
Proof.
  intros Hsp. induction 1 as [|c r Hc Hr IH]; [constructor|].
  destruct (isRegexSpace c) eqn:E.
  - rewrite (replaceSpaceRuns_space _ _ E).
    destruct r as [|c' r']; [repeat constructor; exact Hsp|].
    destruct (isRegexSpace c'); [exact IH | constructor; assumption].
  - rewrite (replaceSpaceRuns_word _ _ E). constructor; assumption.
Qed.

Lemma Forall_simplifiedFrom (P : ascii -> Prop) s :
  P space -> Forall P s -> Forall P (simplifiedFrom s).
Proof.
  intros Hsp. induction 1 as [|c r Hc Hr IH]; [constructor|].
  destruct (isSpace c) eqn:E.
  - rewrite (simplifiedFrom_space _ _ E).
    destruct r as [|c' r']; [constructor|].
    destruct (isSpace c'); [exact IH | constructor; assumption].
  - rewrite (simplifiedFrom_word _ _ E). constructor; assumption.
Qed.

Lemma Forall_skipSpaces (P : ascii -> Prop) s :
  Forall P s -> Forall P (skipSpaces s).
Proof.
  induction 1 as [|c r Hc Hr IH]; [constructor|].
  simpl. destruct (isSpace c); [exact IH | constructor; assumption].
Qed.

Lemma Forall_simplified (P : ascii -> Prop) s :
  P space -> Forall P s -> Forall P (simplified s).
Proof.
  intros Hsp H. apply Forall_simplifiedFrom; [exact Hsp|].
  apply Forall_skipSpaces, H.
Qed.

(** *** Simplified strings *)


Lemma startsWithSpace_skipSpaces s : startsWithSpace (skipSpaces s) = false.
Proof.
  induction s as [|c r IH]; [reflexivity|].
  simpl. destruct (isSpace c) eqn:E; [exact IH | simpl; exact E].
Qed.

Lemma skipSpaces_word s : startsWithSpace s = false -> skipSpaces s = s.
Proof. destruct s as [|c r]; simpl; [reflexivity|]. intros ->. reflexivity. Qed.

Lemma startsWithSpace_simplifiedFrom s :
  startsWithSpace s = false -> startsWithSpace (simplifiedFrom s) = false.
Proof.
  destruct s as [|c r]; simpl; [reflexivity|].
  intros E. rewrite E. simpl. exact E.
Qed.

Lemma singleSpaced_simplifiedFrom s : singleSpaced (simplifiedFrom s) = true.
Proof.
  induction s as [|c r IH]; [reflexivity|].
  destruct (isSpace c) eqn:E.
  - rewrite (simplifiedFrom_space _ _ E).
    destruct r as [|c' r']; [reflexivity|].
    destruct (isSpace c') eqn:E'; [exact IH|].
    rewrite (simplifiedFrom_word _ _ E') in *.
    change (singleSpaced (space :: c' :: simplifiedFrom r'))
      with ((true && negb (isSpace c')) && singleSpaced (c' :: simplifiedFrom r')).
    rewrite E', IH. reflexivity.
  - rewrite (simplifiedFrom_word _ _ E). simpl. rewrite E. exact IH.
Qed.

Lemma simplifiedFrom_singleSpaced s :
  singleSpaced s = true -> simplifiedFrom s = s.
Proof.
  induction s as [|c r IH]; [reflexivity|].
  simpl singleSpaced. intros H. apply andb_prop in H as [Hc Hr].
  destruct (isSpace c) eqn:E.
  - rewrite (simplifiedFrom_space _ _ E).
    apply andb_prop in Hc as [Hc Hw]. apply andb_prop in Hc as [Hc Hne].
    apply Ascii.eqb_eq in Hc. subst c.
    destruct r as [|c' r']; [discriminate|].
    simpl in Hw. apply negb_true_iff in Hw. rewrite Hw.
    rewrite (IH Hr). reflexivity.
  - rewrite (simplifiedFrom_word _ _ E), (IH Hr). reflexivity.
Qed.

Lemma replaceSpaceRuns_singleSpaced s :
  singleSpaced s = true -> replaceSpaceRuns s = s.
Proof.
  induction s as [|c r IH]; [reflexivity|].
  simpl singleSpaced. intros H. apply andb_prop in H as [Hc Hr].
  destruct (isRegexSpace c) eqn:E.
  - rewrite (replaceSpaceRuns_space _ _ E).
    rewrite (isRegexSpace_isSpace _ E) in Hc.
    apply andb_prop in Hc as [Hc Hw]. apply andb_prop in Hc as [Hc Hne].
    apply Ascii.eqb_eq in Hc. subst c.
    destruct r as [|c' r']; [discriminate|].
    simpl in Hw. apply negb_true_iff in Hw.
    destruct (isRegexSpace c') eqn:E'.
    + rewrite (isRegexSpace_isSpace _ E') in Hw. discriminate.
    + rewrite (IH Hr). reflexivity.
  - rewrite (replaceSpaceRuns_word _ _ E), (IH Hr). reflexivity.
Qed.

Lemma singleSpaced_simplified s : singleSpaced (simplified s) = true.
Proof. apply singleSpaced_simplifiedFrom. Qed.

Lemma startsWithSpace_simplified s : startsWithSpace (simplified s) = false.
Proof. apply startsWithSpace_simplifiedFrom, startsWithSpace_skipSpaces. Qed.

Lemma simplified_fixed s :
  singleSpaced s = true -> startsWithSpace s = false -> simplified s = s.
Proof.
  intros H1 H2. unfold simplified. rewrite (skipSpaces_word _ H2).
  apply simplifiedFrom_singleSpaced, H1.
Qed.

(** *** The normal form *)

Lemma normalizeText_unfold text :
  normalizeText text
  = simplified (replaceSpaceRuns
                  (map (fun c => separatorsToSpace (toLowerChar c)) text)).
Proof. unfold normalizeText. cbv zeta. rewrite replace_separators. reflexivity. Qed.

Lemma normalizeText_plain text : Forall plainChar (normalizeText text).
Proof.
  rewrite normalizeText_unfold.
  apply Forall_simplified; [exact plainChar_space|].
  apply Forall_replaceSpaceRuns; [exact plainChar_space|].
  induction text as [|c r IH]; simpl; constructor; [apply plainChar_lowered | exact IH].
Qed.

Lemma normalizeText_fixed s :
  Forall plainChar s -> singleSpaced s = true -> startsWithSpace s = false ->
  normalizeText s = s.
Proof.
  intros Hp Hs Hw. rewrite normalizeText_unfold.
  rewrite (map_fixed (fun c => separatorsToSpace (toLowerChar c))).
  - rewrite (replaceSpaceRuns_singleSpaced _ Hs). apply simplified_fixed; assumption.
  - eapply Forall_impl; [exact Hp|].
    intros c (Hl & Hu & Hh). cbv beta. rewrite Hl.
    unfold separatorsToSpace. cbv zeta. rewrite Hu, Hh. reflexivity.
Qed.

End StringFacts.

(** ** The normaliser is idempotent and ignores case and separators *)

Lemma normalizeText_shape text :
  Forall plainChar (normalizeText text)
  /\ singleSpaced (normalizeText text) = true
  /\ startsWithSpace (normalizeText text) = false.
Proof.
  split; [apply normalizeText_plain|].
  unfold normalizeText; cbv zeta.
  split; [apply singleSpaced_simplified | apply startsWithSpace_simplified].
Qed.

Lemma normalizeText_idem text :
  normalizeText (normalizeText text) = normalizeText text.
Proof.
  destruct (normalizeText_shape text) as (Hp & Hs & Hw).
  apply normalizeText_fixed; assumption.
Qed.

Lemma normalizeText_toLower text :
  normalizeText (toLower text) = normalizeText text.
Proof.
  rewrite !normalizeText_unfold. unfold toLower. rewrite map_map.
  do 2 f_equal. apply map_ext. intros c. rewrite toLowerChar_idem. reflexivity.
Qed.

Lemma normalizeText_underscore text :
  normalizeText (replaceChar "_" space text) = normalizeText text.
Proof.
  rewrite !normalizeText_unfold. unfold replaceChar. rewrite map_map.
  do 2 f_equal. apply map_ext. intros c. apply separators_lower_underscore.
Qed.

Lemma normalizeText_hyphen text :
  normalizeText (replaceChar "-" space text) = normalizeText text.
Proof.
  rewrite !normalizeText_unfold. unfold replaceChar. rewrite map_map.
  do 2 f_equal. apply map_ext. intros c. apply separators_lower_hyphen.
Qed.

(** ** The search filter *)

Section SearchFacts.

Lemma startsWith_spec s p : startsWith s p = true <-> exists r, s = p ++ r.
Proof.
  revert s. induction p as [|a p IH]; intros s; simpl.
  - split; [intros _; exists s; reflexivity | reflexivity].
  - destruct s as [|b s].
    + split; [discriminate | intros [r Hr]; discriminate].
    + rewrite andb_true_iff, Ascii.eqb_eq, IH. split.
      * intros [-> [r ->]]. exists r. reflexivity.
      * intros [r Hr]. injection Hr as -> ->. split; [reflexivity | exists r; reflexivity].
Qed.

Lemma contains_spec s t : contains s t = true <-> isSubstring t s.
Proof.
  unfold isSubstring. induction s as [|c s IH].
  - simpl. rewrite orb_false_r, startsWith_spec. split.
    + intros [r Hr]. exists [], r. exact Hr.
    + intros [l [r Hr]]. destruct l; [exists r; exact Hr | discriminate].
  - change (contains (c :: s) t) with (startsWith (c :: s) t || contains s t).
    rewrite orb_true_iff, startsWith_spec, IH. split.
    + intros [[r Hr] | [l [r Hr]]].
      * exists [], r. exact Hr.
      * exists (c :: l), r. rewrite Hr. reflexivity.
    + intros [l [r Hr]]. destruct l as [|d l].
      * left. exists r. exact Hr.
      * right. injection Hr as -> ->. exists l, r. reflexivity.
Qed.

Lemma split_cons sep s : exists part parts, split sep s = part :: parts.
Proof.
  destruct s as [|c r]; simpl; [eauto|].
  destruct (Ascii.eqb c sep); [eauto|].
  destruct (split sep r); eauto.
Qed.

(** Joining the parts with the separator gives the text back. *)
Lemma join_split sep s : join [sep] (split sep s) = s.
Proof.
  induction s as [|c r IH]; [reflexivity|].
  simpl split. destruct (split_cons sep r) as (part & parts & E).
  rewrite E in *. destruct (Ascii.eqb c sep) eqn:Ec.
  - apply Ascii.eqb_eq in Ec. subst c.
    change (join [sep] ([] :: part :: parts))
      with (sep :: join [sep] (part :: parts)).
    rewrite IH. reflexivity.
  - destruct parts as [|part' parts'].
    + simpl in *. rewrite IH. reflexivity.
    + change (join [sep] ((c :: part) :: part' :: parts'))
        with (c :: join [sep] (part :: part' :: parts')).
      rewrite IH. reflexivity.
Qed.

(** No part holds the separator. *)
Lemma split_free sep s : Forall (fun part => ~ In sep part) (split sep s).
Proof.
  induction s as [|c r IH]; simpl.
  - constructor; [intros [] | constructor].
  - destruct (Ascii.eqb c sep) eqn:Ec.
    + constructor; [intros [] | exact IH].
    + destruct (split sep r) as [|part parts].
      * constructor; [|constructor]. intros [-> | []].
        rewrite Ascii.eqb_refl in Ec. discriminate.
      * inversion IH as [|? ? Hpart Hparts]; subst. constructor; [|exact Hparts].
        intros [-> | Hin]; [|exact (Hpart Hin)].
        rewrite Ascii.eqb_refl in Ec. discriminate.
Qed.

Lemma filterAcceptsRow_spec tokens item :
  filterAcceptsRow tokens item = true
  <-> tokens = [] \/ itemSearchKey item = []
      \/ forall token, In token tokens -> isSubstring token (itemSearchKey item).
Proof.
  unfold filterAcceptsRow. destruct tokens as [|token tokens'].
  - split; [left; reflexivity | reflexivity].
  - cbv zeta. destruct (itemSearchKey item) as [|c key] eqn:Ekey.
    + split; [right; left; reflexivity | reflexivity].
    + cbn [isEmpty]. rewrite forallb_forall. split.
      * intros H. right. right. intros t Ht. apply contains_spec, H, Ht.
      * intros [H | [H | H]]; [discriminate | discriminate |].
        intros t Ht. apply contains_spec, H, Ht.
Qed.

End SearchFacts.

(** ** File names *)

Section FileNameFacts.

Lemma split_plain sep s : ~ In sep s -> split sep s = [s].
Proof.
  induction s as [|c r IH]; [reflexivity|].
  intros H. simpl. destruct (Ascii.eqb c sep) eqn:Ec.
  - apply Ascii.eqb_eq in Ec. subst c. exfalso. apply H. left. reflexivity.
  - rewrite IH; [reflexivity|]. intros Hin. apply H. right. exact Hin.
Qed.

Lemma split_app sep a b :
  split sep (a ++ sep :: b) = split sep a ++ split sep b.
Proof.
  induction a as [|c r IH].
  - simpl. rewrite Ascii.eqb_refl. reflexivity.
  - simpl. destruct (Ascii.eqb c sep); [rewrite IH; reflexivity|].
    rewrite IH. destruct (split_cons sep r) as (part & parts & ->). reflexivity.
Qed.

Lemma split_last sep a b :
  ~ In sep b ->
  split sep (a ++ sep :: b) = split sep a ++ [b].
Proof. intros H. rewrite split_app, (split_plain _ _ H). reflexivity. Qed.

Lemma fileName_filePathIn dir name :
  ~ In "/"%char name ->
  QFileInfo.fileName (QDirIterator.filePathIn dir name) = name.
Proof.
  intros H. unfold QFileInfo.fileName, QDirIterator.filePathIn.
  rewrite (split_last _ _ _ H). apply last_last.
Qed.

Lemma absolutePath_filePathIn dir name :
  dir <> [] -> ~ In "/"%char name ->
  QFileInfo.absolutePath (QDirIterator.filePathIn dir name) = dir.
Proof.
  intros Hdir H. unfold QFileInfo.absolutePath, QDirIterator.filePathIn.
  rewrite (split_last _ _ _ H), removelast_last, join_split.
  destruct dir; [contradiction | reflexivity].
Qed.

Lemma completeBaseName_filePathIn dir base ext :
  ~ In "/"%char (base ++ "."%char :: ext) -> ~ In "."%char ext ->
  QFileInfo.completeBaseName (QDirIterator.filePathIn dir (base ++ "."%char :: ext))
  = base.
Proof.
  intros Hname Hext. unfold QFileInfo.completeBaseName.
  rewrite (fileName_filePathIn _ _ Hname), (split_last _ _ _ Hext).
  pose proof (join_split "." base) as J.
  destruct (split_cons "." base) as (part & parts & E). rewrite E in *.
  destruct parts as [|part' parts']; [exact J|].
  change ((part :: part' :: parts') ++ [ext])
    with (part :: part' :: (parts' ++ [ext])).
  cbv iota beta.
  change (part :: part' :: (parts' ++ [ext]))
    with ((part :: part' :: parts') ++ [ext]).
  rewrite removelast_last. exact J.
Qed.

Lemma completeBaseName_no_dot dir name :
  ~ In "/"%char name -> ~ In "."%char name ->
  QFileInfo.completeBaseName (QDirIterator.filePathIn dir name) = name.
Proof.
  intros Hname Hdot. unfold QFileInfo.completeBaseName.
  rewrite (fileName_filePathIn _ _ Hname), (split_plain _ _ Hdot). reflexivity.
Qed.

End FileNameFacts.

(** ** The catalogue *)

Section CatalogueFacts.

Lemma addTrack_known filePath w :
  filePath ∈ trackSet_ w -> addTrack filePath w = w.
Proof. intros H. unfold addTrack. rewrite decide_True by exact H. reflexivity. Qed.

Lemma addTrack_new filePath w :
  filePath ∉ trackSet_ w ->
  addTrack filePath w
  = {| model_ := model_ w ++ [trackItem filePath];
       trackSet_ := {[ filePath ]} ∪ trackSet_ w;
       filterText_ := filterText_ w; tokens_ := tokens_ w;
       currentIndex_ := currentIndex_ w; playerSource_ := playerSource_ w;
       playerState_ := playerState_ w; shuffleEnabled_ := shuffleEnabled_ w;
       repeatMode_ := repeatMode_ w; currentFilePath_ := currentFilePath_ w;
       playHistory_ := playHistory_ w |}.
Proof. intros H. unfold addTrack. rewrite decide_False by exact H. reflexivity. Qed.

Lemma count_addTrack_new filePath w :
  filePath ∉ trackSet_ w -> count (addTrack filePath w) = count w + 1.
Proof.
  intros H. rewrite (addTrack_new _ _ H). unfold count. simpl.
  rewrite length_app. simpl. lia.
Qed.

Lemma addTrack_member filePath w : filePath ∈ trackSet_ (addTrack filePath w).
Proof.
  unfold addTrack. destruct (decide (filePath ∈ trackSet_ w)) as [H|H]; [exact H|].
  simpl. set_solver.
Qed.

Lemma addTrack_twice filePath w :
  addTrack filePath (addTrack filePath w) = addTrack filePath w.
Proof. apply addTrack_known, addTrack_member. Qed.

Lemma addTrack_invariant filePath w :
  catalogueInvariant w -> catalogueInvariant (addTrack filePath w).
Proof.
  intros [Hnd Hset]. unfold addTrack.
  destruct (decide (filePath ∈ trackSet_ w)) as [H|H]; [split; assumption|].
  unfold catalogueInvariant, filePaths in *. simpl. rewrite map_app. simpl. split.
  - apply NoDup_app. split; [exact Hnd|]. split; [|apply NoDup_singleton].
    intros x Hx Hx'. apply list_elem_of_singleton in Hx'. subst x.
    apply H, Hset, list_elem_of_In, Hx.
  - intros p. rewrite in_app_iff, elem_of_union, elem_of_singleton, Hset.
    simpl. intuition congruence.
Qed.

Lemma fold_addTrack_invariant paths w :
  catalogueInvariant w ->
  catalogueInvariant (fold_left (fun w filePath => addTrack filePath w) paths w).
Proof.
  revert w. induction paths as [|p paths IH]; intros w H; [exact H|].
  simpl. apply IH, addTrack_invariant, H.
Qed.

Lemma scanFolder_invariant path entries w :
  catalogueInvariant w -> catalogueInvariant (scanFolder path entries w).
Proof. apply fold_addTrack_invariant. Qed.

Lemma addFolder_invariant dir entries w :
  catalogueInvariant w -> catalogueInvariant (addFolder dir entries w).
Proof.
  intros H. unfold addFolder. destruct (isEmpty dir); [exact H|].
  apply scanFolder_invariant, H.
Qed.

Lemma initialWindow_invariant : catalogueInvariant initialWindow.
Proof.
  split; [constructor|]. intros p. simpl. split; [set_solver | intros []].
Qed.

End CatalogueFacts.

(** ** What the slots leave untouched *)

Section Frames.

Lemma playTrack_catalogue filePath recordHistory w :
  model_ (playTrack filePath recordHistory w) = model_ w
  /\ trackSet_ (playTrack filePath recordHistory w) = trackSet_ w
  /\ tokens_ (playTrack filePath recordHistory w) = tokens_ w.
Proof. unfold playTrack. destruct (isEmpty filePath); repeat split. Qed.

Lemma playIndex_catalogue row w :
  model_ (playIndex row w) = model_ w
  /\ trackSet_ (playIndex row w) = trackSet_ w
  /\ tokens_ (playIndex row w) = tokens_ w.
Proof.
  unfold playIndex. destruct (itemAt w row); [apply playTrack_catalogue | repeat split].
Qed.

Lemma playNext_catalogue generated w :
  model_ (playNext generated w) = model_ w
  /\ trackSet_ (playNext generated w) = trackSet_ w
  /\ tokens_ (playNext generated w) = tokens_ w.
Proof.
  unfold playNext. destruct (rowCount w =? 0); [repeat split|].
  destruct (negb _); [apply playIndex_catalogue | repeat split].
Qed.

Lemma playPrevious_catalogue w :
  model_ (playPrevious w) = model_ w
  /\ trackSet_ (playPrevious w) = trackSet_ w
  /\ tokens_ (playPrevious w) = tokens_ w.
Proof.
  unfold playPrevious. destruct (2 <=? length (playHistory_ w))%nat.
  - cbv zeta. set (w' := setPlayHistory _ w).
    destruct (playTrack_catalogue (List.last (playHistory_ w') []) false w')
      as (-> & -> & ->).
    repeat split.
  - destruct (negb _); [apply playIndex_catalogue | repeat split].
Qed.

Lemma playPause_catalogue w :
  model_ (playPause w) = model_ w
  /\ trackSet_ (playPause w) = trackSet_ w
  /\ tokens_ (playPause w) = tokens_ w.
Proof.
  unfold playPause, playSelected.
  destruct (playerState_ w); try (repeat split; fail);
    (destruct (negb _); [repeat split|]);
    (destruct (isValid _ _); [apply playIndex_catalogue|]);
    (destruct (rowCount w >? 0); [apply playIndex_catalogue | repeat split]).
Qed.

Lemma handleMediaStatus_catalogue status generated w :
  model_ (handleMediaStatus status generated w) = model_ w
  /\ trackSet_ (handleMediaStatus status generated w) = trackSet_ w
  /\ tokens_ (handleMediaStatus status generated w) = tokens_ w.
Proof.
  unfold handleMediaStatus. destruct status; try (repeat split; fail).
  destruct (repeatMode_ w =? 2); [apply playTrack_catalogue | apply playNext_catalogue].
Qed.

(** Only a scan changes the catalogue. *)
Lemma handle_catalogue e w :
  match e with
  | AddFolderClicked _ _ => True
  | _ => model_ (handle e w) = model_ w /\ trackSet_ (handle e w) = trackSet_ w
  end.
Proof.
  destruct e; simpl; try exact I; try (split; reflexivity).
  - unfold playSelected. split; apply playIndex_catalogue.
  - split; apply playPause_catalogue.
  - split; apply playNext_catalogue.
  - split; apply playPrevious_catalogue.
  - split; apply handleMediaStatus_catalogue.
Qed.

Lemma catalogueInvariant_frame w w' :
  model_ w' = model_ w -> trackSet_ w' = trackSet_ w ->
  catalogueInvariant w -> catalogueInvariant w'.
Proof.
  unfold catalogueInvariant, filePaths. intros -> ->. exact (fun H => H).
Qed.

Lemma handle_catalogueInvariant e w :
  catalogueInvariant w -> catalogueInvariant (handle e w).
Proof.
  intros H. pose proof (handle_catalogue e w) as F.
  destruct e; try (exact (catalogueInvariant_frame _ _ (proj1 F) (proj2 F) H)).
  apply addFolder_invariant, H.
Qed.

Lemma reachable_catalogueInvariant w : reachable w -> catalogueInvariant w.
Proof.
  induction 1 as [musicDir entries | e w _ IH].
  - apply addFolder_invariant, initialWindow_invariant.
  - apply handle_catalogueInvariant, IH.
Qed.

(** Scanning leaves the history, the player and the view alone. *)
Lemma addTrack_playback filePath w :
  playHistory_ (addTrack filePath w) = playHistory_ w
  /\ currentFilePath_ (addTrack filePath w) = currentFilePath_ w
  /\ playerSource_ (addTrack filePath w) = playerSource_ w
  /\ playerState_ (addTrack filePath w) = playerState_ w.
Proof. unfold addTrack. destruct (decide _); repeat split. Qed.

Lemma addFolder_playback dir entries w :
  playHistory_ (addFolder dir entries w) = playHistory_ w
  /\ currentFilePath_ (addFolder dir entries w) = currentFilePath_ w
  /\ playerSource_ (addFolder dir entries w) = playerSource_ w
  /\ playerState_ (addFolder dir entries w) = playerState_ w.
Proof.
  unfold addFolder. destruct (isEmpty dir); [repeat split|].
  unfold scanFolder. generalize (QDirIterator.listAll kFilters dir entries).
  intros paths. revert w. induction paths as [|p paths IH]; intros w; [repeat split|].
  simpl. destruct (IH (addTrack p w)) as (-> & -> & -> & ->).
  apply addTrack_playback.
Qed.

End Frames.

(** ** The play history *)

Section HistoryFacts.

Lemma playTrack_history filePath recordHistory w :
  playHistory_ (playTrack filePath recordHistory w)
  = if isEmpty filePath then playHistory_ w
    else if recordHistory
            && (match playHistory_ w with [] => true | _ => false end
                || negb (bool_decide (List.last (playHistory_ w) [] = filePath)))
         then playHistory_ w ++ [filePath]
         else playHistory_ w.
Proof. unfold playTrack. destruct (isEmpty filePath); reflexivity. Qed.

Lemma playTrack_historyStep filePath recordHistory w :
  historyStep (playHistory_ w) (playHistory_ (playTrack filePath recordHistory w)).
Proof.
  rewrite playTrack_history. destruct (isEmpty filePath) eqn:Ep; [constructor|].
  destruct recordHistory; [|constructor].
  assert (Hp : filePath <> []) by (intros ->; discriminate).
  destruct (bool_decide (List.last (playHistory_ w) [] = filePath)) eqn:Ed.
  - destruct (playHistory_ w); cbn [andb orb negb]; [|constructor].
    apply (history_appended [] filePath Hp). left. reflexivity.
  - apply bool_decide_eq_false in Ed.
    replace (true && (match playHistory_ w with [] => true | _ => false end
                      || negb false)) with true
      by (destruct (playHistory_ w); reflexivity).
    apply (history_appended _ filePath Hp). right. exact Ed.
Qed.

Lemma playTrack_silent filePath w :
  playHistory_ (playTrack filePath false w) = playHistory_ w.
Proof. unfold playTrack. destruct (isEmpty filePath); reflexivity. Qed.

Lemma playIndex_historyStep row w :
  historyStep (playHistory_ w) (playHistory_ (playIndex row w)).
Proof.
  unfold playIndex. destruct (itemAt w row); [apply playTrack_historyStep | constructor].
Qed.

Lemma playNext_historyStep generated w :
  historyStep (playHistory_ w) (playHistory_ (playNext generated w)).
Proof.
  unfold playNext. destruct (rowCount w =? 0); [constructor|].
  destruct (negb _); [apply playIndex_historyStep | constructor].
Qed.

Lemma playPrevious_historyStep w :
  historyStep (playHistory_ w) (playHistory_ (playPrevious w)).
Proof.
  unfold playPrevious. destruct (2 <=? length (playHistory_ w))%nat.
  - cbv zeta. rewrite playTrack_silent. simpl. constructor.
  - destruct (negb _); [apply playIndex_historyStep | constructor].
Qed.

Lemma playPause_historyStep w :
  historyStep (playHistory_ w) (playHistory_ (playPause w)).
Proof.
  unfold playPause, playSelected.
  destruct (playerState_ w); try (constructor; fail);
    (destruct (negb _); [constructor|]);
    (destruct (isValid _ _); [apply playIndex_historyStep|]);
    (destruct (rowCount w >? 0); [apply playIndex_historyStep | constructor]).
Qed.

Lemma handleMediaStatus_historyStep status generated w :
  historyStep (playHistory_ w)
              (playHistory_ (handleMediaStatus status generated w)).
Proof.
  unfold handleMediaStatus. destruct status; try (constructor; fail).
  destruct (repeatMode_ w =? 2).
  - rewrite playTrack_silent. constructor.
  - apply playNext_historyStep.
Qed.

Lemma handle_historyStep e w :
  historyStep (playHistory_ w) (playHistory_ (handle e w)).
Proof.
  destruct e; simpl; try (constructor; fail).
  - destruct (addFolder_playback dir entries w) as (-> & _). constructor.
  - unfold playSelected. apply playIndex_historyStep.
  - apply playPause_historyStep.
  - apply playNext_historyStep.
  - apply playPrevious_historyStep.
  - apply handleMediaStatus_historyStep.
Qed.

Lemma removelast_consecutive history :
  ~ consecutiveDuplicate history -> ~ consecutiveDuplicate (removelast history).
Proof.
  intros H (before & p & after & E). apply H.
  destruct history as [|x front _] using rev_ind.
  - destruct before; discriminate.
  - rewrite removelast_last in E. subst front.
    exists before, p, (after ++ [x]). rewrite <- app_assoc. reflexivity.
Qed.

Lemma append_consecutive history p :
  history = [] \/ List.last history [] <> p ->
  ~ consecutiveDuplicate history -> ~ consecutiveDuplicate (history ++ [p]).
Proof.
  intros Hlast H (before & q & after & E).
  destruct after as [|x after _] using rev_ind.
  - (* the pair ends the list: its first half is the old last entry *)
    change (before ++ [q; q]) with (before ++ [q] ++ [q]) in E.
    rewrite app_assoc in E. apply app_inj_tail in E as [-> <-].
    destruct Hlast as [Hnil | Hne].
    + destruct before; discriminate.
    + apply Hne, last_last.
  - change (before ++ q :: q :: after ++ [x])
      with (before ++ (q :: q :: after) ++ [x]) in E.
    rewrite app_assoc in E. apply app_inj_tail in E as [-> _].
    apply H. exists before, q, after. reflexivity.
Qed.

Lemma historyStep_invariant history history' :
  historyStep history history' ->
  ~ consecutiveDuplicate history /\ Forall (fun p => p <> []) history ->
  ~ consecutiveDuplicate history' /\ Forall (fun p => p <> []) history'.
Proof.
  intros Hstep [Hdup Hne]. destruct Hstep as [| | p Hp Hlast].
  - split; assumption.
  - split; [apply removelast_consecutive, Hdup|].
    destruct history as [|x front _] using rev_ind; [constructor|].
    rewrite removelast_last. apply Forall_app in Hne. apply Hne.
  - split; [apply append_consecutive; assumption|].
    apply Forall_app. split; [exact Hne | constructor; [exact Hp | constructor]].
Qed.

Lemma handle_historyInvariant e w :
  historyInvariant w -> historyInvariant (handle e w).
Proof. apply historyStep_invariant, handle_historyStep. Qed.

Lemma reachable_historyInvariant w : reachable w -> historyInvariant w.
Proof.
  induction 1 as [musicDir entries | e w _ IH].
  - unfold historyInvariant.
    destruct (addFolder_playback musicDir entries initialWindow) as (-> & _).
    split; [|constructor]. intros (before & p & after & E).
    destruct before; discriminate.
  - apply handle_historyInvariant, IH.
Qed.

End HistoryFacts.

(** ** Name filters and extensions *)

Section NameFilterFacts.

Local Ltac by_cases_on c :=
  destruct c as [[] [] [] [] [] [] [] []]; vm_compute; intuition congruence.

Lemma toLowerChar_dot c : toLowerChar c = "."%char <-> c = "."%char.
Proof. by_cases_on c. Qed.

Lemma wildcardMatch_literal p name :
  literalPattern p ->
  QDirIterator.wildcardMatch p name = true <-> toLower name = toLower p.
Proof.
  intros Hp. revert name. induction Hp as [|c p [Hstar Hany] _ IH]; intros name.
  - destruct name; simpl; split; congruence.
  - simpl. rewrite Hstar, Hany. destruct name as [|d name]; simpl.
    + split; discriminate.
    + rewrite andb_true_iff, Ascii.eqb_eq, IH. split.
      * intros [-> ->]. reflexivity.
      * intros H. injection H as -> ->. split; reflexivity.
Qed.

Lemma wildcardMatch_star_unfold p name :
  QDirIterator.wildcardMatch ("*"%char :: p) name
  = QDirIterator.wildcardMatch p name
    || match name with
       | [] => false
       | _ :: name' => QDirIterator.wildcardMatch ("*"%char :: p) name'
       end.
Proof. destruct name; reflexivity. Qed.

Lemma wildcardMatch_star p name :
  QDirIterator.wildcardMatch ("*"%char :: p) name = true
  <-> exists front back, name = front ++ back /\ QDirIterator.wildcardMatch p back = true.
Proof.
  induction name as [|c name IH]; rewrite wildcardMatch_star_unfold, orb_true_iff.
  - split.
    + intros [H | H]; [exists [], []; split; [reflexivity | exact H] | discriminate].
    + intros (front & back & E & H). left.
      destruct front; [|discriminate]. simpl in E. subst back. exact H.
  - rewrite IH. split.
    + intros [H | (front & back & -> & H)].
      * exists [], (c :: name). split; [reflexivity | exact H].
      * exists (c :: front), back. split; [reflexivity | exact H].
    + intros (front & back & E & H). destruct front as [|d front].
      * left. simpl in E. subst back. exact H.
      * right. injection E as -> ->. exists front, back. split; [reflexivity | exact H].
Qed.

Lemma join_snoc sep part parts last :
  join sep ((part :: parts) ++ [last]) = join sep (part :: parts) ++ sep ++ last.
Proof.
  revert part. induction parts as [|p parts IH]; intros part; [reflexivity|].
  change (join sep ((part :: p :: parts) ++ [last]))
    with (part ++ sep ++ join sep ((p :: parts) ++ [last])).
  rewrite IH.
  change (join sep (part :: p :: parts)) with (part ++ sep ++ join sep (p :: parts)).
  rewrite <- !app_assoc. reflexivity.
Qed.

Lemma suffix_unfold name :
  suffix name
  = if (length (split "." name) <=? 1)%nat then []
    else List.last (split "." name) [].
Proof.
  unfold suffix. destruct (split "." name) as [|part [|part' parts]]; reflexivity.
Qed.

Lemma suffix_of_name front tail :
  ~ In "."%char tail -> suffix (front ++ "."%char :: tail) = tail.
Proof.
  intros H. rewrite suffix_unfold, (split_last _ _ _ H), last_last, length_app.
  destruct (split_cons "." front) as (part & parts & ->). simpl length.
  destruct (Nat.leb_spec (S (length parts) + 1) 1); [lia | reflexivity].
Qed.

Lemma name_of_suffix name :
  suffix name <> [] ->
  exists front, name = front ++ "."%char :: suffix name /\ ~ In "."%char (suffix name).
Proof.
  rewrite suffix_unfold. pose proof (join_split "." name) as J.
  pose proof (split_free "." name) as F.
  destruct (Nat.leb_spec (length (split "." name)) 1) as [Hlen | Hlen];
    [intros H; contradiction|].
  intros _. destruct (split "." name) as [|last parts _] using rev_ind;
    [simpl in Hlen; lia|].
  rewrite last_last. rewrite length_app in Hlen. simpl in Hlen.
  destruct parts as [|part parts]; [simpl in Hlen; lia|].
  exists (join ["."%char] (part :: parts)). split.
  - rewrite <- J. apply join_snoc.
  - apply Forall_app in F as [_ F]. inversion F; assumption.
Qed.

Lemma toLower_dot_free (s : QString) :
  ~ In "."%char (toLower s) -> ~ In "."%char s.
Proof.
  intros H Hin. apply H. unfold toLower. apply in_map_iff.
  exists "."%char. split; [reflexivity | exact Hin].
Qed.

(** A filter ["*.ext"] passes the names whose suffix is [ext] in any case. *)
Lemma wildcardMatch_extension ext name :
  literalPattern ext -> toLower ext = ext -> ext <> [] -> ~ In "."%char ext ->
  QDirIterator.wildcardMatch ("*"%char :: "."%char :: ext) name
  = bool_decide (toLower (suffix name) = ext).
Proof.
  intros Hlit Hlow Hne Hdot. apply eq_true_iff_eq.
  rewrite bool_decide_eq_true, wildcardMatch_star. split.
  - intros (front & back & -> & H).
    apply wildcardMatch_literal in H;
      [|constructor; [split; reflexivity | exact Hlit]].
    destruct back as [|c tail]; [discriminate|].
    simpl in H. injection H as Hc Htail. rewrite Hlow in Htail.
    assert (Ec : c = "."%char) by (apply toLowerChar_dot; exact Hc). subst c.
    rewrite suffix_of_name; [exact Htail|].
    apply toLower_dot_free. rewrite Htail. exact Hdot.
  - intros H.
    destruct (name_of_suffix name) as (front & E & _).
    + intros E. rewrite E in H. simpl in H. subst ext. contradiction.
    + exists front, ("."%char :: suffix name). split; [exact E|].
      apply wildcardMatch_literal; [constructor; [split; reflexivity | exact Hlit]|].
      simpl. rewrite H, Hlow. reflexivity.
Qed.

(** The extensions of the allow-list are plain lower-case words. *)
Lemma allowedExtensions_plain :
  Forall (fun ext => literalPattern ext /\ toLower ext = ext
                     /\ ext <> [] /\ ~ In "."%char ext)
         allowedExtensions.
Proof.
  unfold allowedExtensions, literalPattern.
  repeat (constructor; [repeat split;
    [repeat (constructor; [split; reflexivity|]); constructor
    | discriminate
    | simpl; intuition discriminate ]|]).
  constructor.
Qed.

Lemma kFilters_extensions :
  kFilters = map (fun ext => "*"%char :: "."%char :: ext) allowedExtensions.
Proof. reflexivity. Qed.

(** The name filters of [scanFolder] pass the names with an allowed
    extension, and no other. *)
Lemma kFilters_hasAllowedExtension name :
  existsb (fun pattern => QDirIterator.wildcardMatch pattern name) kFilters
  = hasAllowedExtension name.
Proof.
  rewrite kFilters_extensions. unfold hasAllowedExtension.
  induction allowedExtensions_plain as [|ext exts (Hlit & Hlow & Hne & Hdot) _ IH];
    [reflexivity|].
  simpl. rewrite IH, (wildcardMatch_extension _ _ Hlit Hlow Hne Hdot). reflexivity.
Qed.

End NameFilterFacts.

(** ** The directory iterator *)

Section IteratorFacts.

(** Induction on an entry, with the property at hand for the entries of a
    directory. *)
Lemma FsEntry_nested_ind (P : FsEntry -> Prop) :
  (forall name, P (FsFile name)) ->
  (forall name entries, Forall P entries -> P (FsDir name entries)) ->
  forall e, P e.
Proof.
  intros Hfile Hdir. fix IH 1. intros [name | name entries].
  - apply Hfile.
  - apply Hdir. induction entries as [|e entries IHentries]; constructor.
    + apply IH.
    + exact IHentries.
Qed.

Lemma regularFiles_hidden dir e :
  List.filter scanned (regularFiles dir true e) = [].
Proof.
  revert dir. induction e as [name | name entries IH] using FsEntry_nested_ind;
    intros dir; [reflexivity|].
  simpl. generalize (QDirIterator.filePathIn dir name). intros dir'.
  induction IH as [|e entries He _ IHentries]; [reflexivity|].
  simpl. rewrite List.filter_app, He, IHentries. reflexivity.
Qed.

Lemma regularFiles_hidden_all dir entries :
  List.filter scanned (flat_map (regularFiles dir true) entries) = [].
Proof.
  induction entries as [|e entries IH]; [reflexivity|].
  simpl. rewrite List.filter_app, regularFiles_hidden, IH. reflexivity.
Qed.

(** The iterator lists the regular files that are not hidden, lie in no
    hidden directory and have an allowed extension, in directory order. *)
Lemma listEntry_regularFiles dir e :
  QDirIterator.listEntry kFilters dir e
  = map regularPath (List.filter scanned (regularFiles dir false e)).
Proof.
  revert dir. induction e as [name | name entries IH] using FsEntry_nested_ind;
    intros dir.
  - cbn [QDirIterator.listEntry regularFiles List.filter].
    unfold scanned. cbn [regularHidden regularName orb].
    rewrite kFilters_hasAllowedExtension.
    destruct (negb (QDirIterator.isHidden name) && hasAllowedExtension name);
      reflexivity.
  - cbn [QDirIterator.listEntry regularFiles orb].
    destruct (QDirIterator.isHidden name).
    + rewrite regularFiles_hidden_all. reflexivity.
    + generalize (QDirIterator.filePathIn dir name). intros dir'.
      induction IH as [|e entries He _ IHentries]; [reflexivity|].
      simpl. rewrite List.filter_app, map_app, He, IHentries. reflexivity.
Qed.

Lemma listAll_regularFiles rootPath entries :
  QDirIterator.listAll kFilters rootPath entries
  = map regularPath (List.filter scanned (regularFilesUnder rootPath entries)).
Proof.
  unfold QDirIterator.listAll, regularFilesUnder.
  induction entries as [|e entries IH]; [reflexivity|].
  simpl. rewrite List.filter_app, map_app, listEntry_regularFiles, IH. reflexivity.
Qed.

Lemma regularFiles_path dir hidden e :
  Forall (fun f => regularPath f <> []) (regularFiles dir hidden e).
Proof.
  revert dir hidden.
  induction e as [name | name entries IH] using FsEntry_nested_ind;
    intros dir hidden.
  - constructor; [|constructor]. simpl. unfold QDirIterator.filePathIn.
    destruct dir; discriminate.
  - simpl. generalize (QDirIterator.filePathIn dir name) (hidden || QDirIterator.isHidden name).
    intros dir' hidden'.
    induction IH as [|e entries He _ IHentries]; [constructor|].
    simpl. apply Forall_app. split; [apply He | exact IHentries].
Qed.

Lemma listAll_path rootPath entries :
  Forall (fun p => p <> []) (QDirIterator.listAll kFilters rootPath entries).
Proof.
  rewrite listAll_regularFiles. unfold regularFilesUnder.
  induction entries as [|e entries IH]; [constructor|].
  simpl. rewrite List.filter_app, map_app. apply Forall_app. split; [|exact IH].
  pose proof (regularFiles_path rootPath false e) as H.
  induction H as [|f files Hf _ IHf]; [constructor|].
  simpl. destruct (scanned f); [constructor; assumption | exact IHf].
Qed.

End IteratorFacts.

(** ** Scanning *)

Section ScanFacts.

Lemma fold_addTrack_trackSet paths w p :
  p ∈ trackSet_ (fold_left (fun w filePath => addTrack filePath w) paths w)
  <-> p ∈ trackSet_ w \/ In p paths.
Proof.
  revert w. induction paths as [|q paths IH]; intros w; simpl.
  - intuition.
  - rewrite IH. unfold addTrack. destruct (decide (q ∈ trackSet_ w)) as [H|H].
    + split; [intuition | intros [Hp | [<- | Hp]]; auto].
    + simpl. rewrite elem_of_union, elem_of_singleton. intuition.
Qed.

Lemma addTrack_pathsInvariant filePath w :
  filePath <> [] -> pathsInvariant w -> pathsInvariant (addTrack filePath w).
Proof.
  intros Hp H. unfold addTrack. destruct (decide _); [exact H|].
  unfold pathsInvariant. simpl. apply Forall_app. split; [exact H|].
  constructor; [exact Hp | constructor].
Qed.

Lemma addFolder_pathsInvariant dir entries w :
  pathsInvariant w -> pathsInvariant (addFolder dir entries w).
Proof.
  intros H. unfold addFolder. destruct (isEmpty dir); [exact H|].
  unfold scanFolder. pose proof (listAll_path dir entries) as Hpaths.
  revert w H. induction Hpaths as [|p paths Hp _ IH]; intros w H; [exact H|].
  simpl. apply IH, addTrack_pathsInvariant; assumption.
Qed.

Lemma reachable_pathsInvariant w : reachable w -> pathsInvariant w.
Proof.
  induction 1 as [musicDir entries | e w _ IH].
  - apply addFolder_pathsInvariant. constructor.
  - pose proof (handle_catalogue e w) as F.
    destruct e; try (unfold pathsInvariant; rewrite (proj1 F); exact IH).
    apply addFolder_pathsInvariant, IH.
Qed.

End ScanFacts.

(** ** Rows of the proxy *)

Section ProxyFacts.

Lemma bounded_range generated highest :
  0 < highest -> 0 <= bounded generated highest < highest.
Proof.
  intros H. unfold bounded.
  pose proof (Z.mod_pos_bound generated (2 ^ 32) ltac:(lia)) as Hr.
  split.
  - apply Z.div_pos; nia.
  - apply Z.div_lt_upper_bound; nia.
Qed.

Lemma insertRow_In x y rows : In x (insertRow y rows) <-> x = y \/ In x rows.
Proof.
  induction rows as [|z rows IH]; simpl.
  - intuition.
  - destruct (lessThan z y); simpl; [rewrite IH|]; intuition.
Qed.

Lemma sortRows_In x rows : In x (sortRows rows) <-> In x rows.
Proof.
  induction rows as [|y rows IH]; simpl; [reflexivity|].
  rewrite insertRow_In, IH. intuition.
Qed.

Lemma length_insertRow y rows : length (insertRow y rows) = S (length rows).
Proof.
  induction rows as [|z rows IH]; simpl; [reflexivity|].
  destruct (lessThan z y); simpl; [rewrite IH|]; reflexivity.
Qed.

Lemma length_sortRows rows : length (sortRows rows) = length rows.
Proof.
  induction rows as [|y rows IH]; simpl; [reflexivity|].
  rewrite length_insertRow, IH. reflexivity.
Qed.

(** The view shows rows of the catalogue that pass the filter. *)
Lemma proxyRows_model item w :
  In item (proxyRows w) ->
  In item (model_ w) /\ filterAcceptsRow (tokens_ w) item = true.
Proof.
  unfold proxyRows. rewrite sortRows_In. apply filter_In.
Qed.

Lemma rowCount_nonneg w : 0 <= rowCount w.
Proof. unfold rowCount. lia. Qed.

Lemma itemAt_valid w row :
  0 <= row < rowCount w ->
  exists item,
    itemAt w row = Some item
    /\ nth_error (proxyRows w) (Z.to_nat row) = Some item
    /\ In item (proxyRows w).
Proof.
  intros [H0 H1]. unfold itemAt, isValid.
  destruct (Z.leb_spec 0 row); [|lia]. destruct (Z.ltb_spec row (rowCount w)); [|lia].
  simpl. unfold rowCount in H1.
  destruct (nth_error (proxyRows w) (Z.to_nat row)) as [item|] eqn:E.
  - exists item. repeat split. eapply nth_error_In, E.
  - apply nth_error_None in E. lia.
Qed.

Lemma itemAt_invalid w row :
  ~ (0 <= row < rowCount w) -> itemAt w row = None.
Proof.
  intros H. unfold itemAt, isValid.
  destruct (Z.leb_spec 0 row); destruct (Z.ltb_spec row (rowCount w));
    simpl; try reflexivity; lia.
Qed.

Lemma playTrack_plays filePath recordHistory w :
  filePath <> [] ->
  currentFilePath_ (playTrack filePath recordHistory w) = filePath
  /\ playerSource_ (playTrack filePath recordHistory w) = filePath
  /\ playerState_ (playTrack filePath recordHistory w) = PlayingState.
Proof.
  intros H. unfold playTrack. destruct filePath; [contradiction|].
  repeat split.
Qed.

End ProxyFacts.

(** ** The catalogue holds every path once *)

Lemma addTrack_appends_false filePath w :
  addTrack_appends filePath w = false <-> filePath ∈ trackSet_ w.
Proof.
  unfold addTrack_appends. rewrite negb_false_iff. apply bool_decide_eq_true.
Qed.

Lemma addTrack_appends_true filePath w :
  addTrack_appends filePath w = true <-> filePath ∉ trackSet_ w.
Proof.
  unfold addTrack_appends. rewrite negb_true_iff. apply bool_decide_eq_false.
Qed.

(** C2.  [addTrack] on a path of the catalogue changes nothing; on any other
    path it appends exactly one row, whose text is the file name without its
    extension and whose search key is the normal form of text, file name and
    directory, separated by spaces.  So adding a new path twice raises the
    count by exactly one, and in every reachable state no two rows have the
    same path. *)
Theorem addTrack_no_duplicate_paths :
  (forall filePath w,
      addTrack_appends filePath w = false -> addTrack filePath w = w)
  /\ (forall filePath w,
        addTrack_appends filePath w = true ->
        model_ (addTrack filePath w) = model_ w ++ [trackItem filePath]
        /\ trackSet_ (addTrack filePath w) = {[ filePath ]} ∪ trackSet_ w
        /\ count (addTrack filePath w) = count w + 1)
  /\ (forall filePath,
        itemFilePath (trackItem filePath) = filePath
        /\ itemText (trackItem filePath) = QFileInfo.completeBaseName filePath
        /\ itemSearchKey (trackItem filePath)
           = normalizeText (itemText (trackItem filePath) ++ [space]
                            ++ QFileInfo.fileName filePath ++ [space]
                            ++ QFileInfo.absolutePath filePath))
  /\ (forall dir base ext,
        dir <> [] ->
        ~ In "/"%char (base ++ "."%char :: ext) -> ~ In "."%char ext ->
        QFileInfo.completeBaseName
          (QDirIterator.filePathIn dir (base ++ "."%char :: ext)) = base
        /\ QFileInfo.fileName
             (QDirIterator.filePathIn dir (base ++ "."%char :: ext))
           = base ++ "."%char :: ext
        /\ QFileInfo.absolutePath
             (QDirIterator.filePathIn dir (base ++ "."%char :: ext)) = dir)
  /\ (forall filePath w,
        addTrack filePath (addTrack filePath w) = addTrack filePath w)
  /\ (forall filePath w,
        addTrack_appends filePath w = true ->
        count (addTrack filePath (addTrack filePath w)) = count w + 1)
  /\ (forall w,
        reachable w ->
        NoDup (filePaths w)
        /\ forall filePath,
             addTrack_appends filePath w = false <-> In filePath (filePaths w)).
Proof.
  split.
  { intros filePath w H. apply addTrack_known, addTrack_appends_false, H. }
  split.
  { intros filePath w H. apply addTrack_appends_true in H.
    rewrite (count_addTrack_new _ _ H), (addTrack_new _ _ H). repeat split. }
  split; [intros filePath; repeat split|].
  split.
  { intros dir base ext Hdir Hname Hext.
    split; [apply completeBaseName_filePathIn; assumption|].
    split; [apply fileName_filePathIn, Hname|].
    apply absolutePath_filePathIn; assumption. }
  split; [exact addTrack_twice|].
  split.
  { intros filePath w H. rewrite addTrack_twice.
    apply count_addTrack_new, addTrack_appends_true, H. }
  intros w Hw. destruct (reachable_catalogueInvariant w Hw) as [Hnd Hset].
  split; [exact Hnd|].
  intros filePath. rewrite addTrack_appends_false. apply Hset.
Qed.

(** The statement at the window with three tracks: a fourth path, added
    twice, is counted once. *)
Lemma addTrack_no_duplicate_paths_witness :
  addTrack_appends (QStringLiteral "/music/delta.mp3") threeTracks = true
  /\ count (addTrack (QStringLiteral "/music/delta.mp3")
              (addTrack (QStringLiteral "/music/delta.mp3") threeTracks))
     = count threeTracks + 1.
Proof.
  split; [reflexivity|].
  apply (proj1 (proj2 (proj2 (proj2 (proj2 (proj2 addTrack_no_duplicate_paths)))))).
  reflexivity.
Defined.

(** ** Scanning a folder *)

(** C7, as the code has it.  The iterator hands out, in directory order, the
    regular files below the root that are not hidden, lie in no hidden
    directory and have an extension of the allow-list, in any case;
    [scanFolder] calls [addTrack] on exactly these paths, so that the known
    paths after the scan are those known before and those.  A directory with
    song.mp3, SONG.MP3 and notes.txt brings the count of an empty catalogue
    to 2. *)
Theorem scanFolder_adds_visible_audio_files :
  (forall rootPath entries,
      QDirIterator.listAll kFilters rootPath entries
      = map regularPath
          (List.filter scanned (regularFilesUnder rootPath entries)))
  /\ (forall name,
        existsb (fun pattern => QDirIterator.wildcardMatch pattern name) kFilters
        = existsb (fun ext => bool_decide (toLower (suffix name) = ext))
                  allowedExtensions)
  /\ (forall rootPath entries w,
        scanFolder rootPath entries w
        = fold_left (fun w filePath => addTrack filePath w)
            (map regularPath
               (List.filter scanned (regularFilesUnder rootPath entries))) w)
  /\ (forall rootPath entries w filePath,
        filePath ∈ trackSet_ (scanFolder rootPath entries w)
        <-> filePath ∈ trackSet_ w
            \/ exists f, In f (regularFilesUnder rootPath entries)
                 /\ regularPath f = filePath
                 /\ regularHidden f = false
                 /\ hasAllowedExtension (regularName f) = true)
  /\ count (scanFolder (QStringLiteral "/music") scanScenario initialWindow) = 2
  /\ filePaths (scanFolder (QStringLiteral "/music") scanScenario initialWindow)
     = [QStringLiteral "/music/song.mp3"; QStringLiteral "/music/SONG.MP3"].
Proof.
  split; [exact listAll_regularFiles|].
  split; [exact kFilters_hasAllowedExtension|].
  split.
  { intros rootPath entries w. unfold scanFolder.
    rewrite listAll_regularFiles. reflexivity. }
  split; [|split; reflexivity].
  intros rootPath entries w filePath. unfold scanFolder.
  rewrite fold_addTrack_trackSet, listAll_regularFiles, in_map_iff.
  split; (intros [H | (f & H)]; [left; exact H | right; exists f]).
  - destruct H as [Hpath Hin]. apply filter_In in Hin as [Hin Hs].
    unfold scanned in Hs. apply andb_prop in Hs as [Hh He].
    apply negb_true_iff in Hh. repeat split; assumption.
  - destruct H as (Hin & Hpath & Hh & He). split; [exact Hpath|].
    apply filter_In. split; [exact Hin|]. unfold scanned. rewrite Hh, He. reflexivity.
Qed.

(** C7, the case that departs from the specification: a regular file with
    the extension mp3 whose name starts with a dot lies in the root, and the
    scan adds nothing. *)
Lemma scanFolder_skips_hidden_file :
  map regularName (regularFilesUnder (QStringLiteral "/music") hiddenScenario)
  = [QStringLiteral ".intro.mp3"]
  /\ hasAllowedExtension (QStringLiteral ".intro.mp3") = true
  /\ QDirIterator.listAll kFilters (QStringLiteral "/music") hiddenScenario = []
  /\ count (scanFolder (QStringLiteral "/music") hiddenScenario initialWindow) = 0.
Proof. repeat split. Qed.

(** ** Next and previous *)

Lemma nextRow_sequential generated w :
  shuffleEnabled_ w = false ->
  nextRow generated w
  = if currentIndex_ w + 1 >=? rowCount w
    then (if repeatMode_ w =? 1 then 0 else -1)
    else currentIndex_ w + 1.
Proof. intros H. unfold nextRow. rewrite H. reflexivity. Qed.

Lemma playNext_unfold generated w :
  playNext generated w
  = if rowCount w =? 0 then w
    else if nextRow generated w =? -1 then w
         else playIndex (nextRow generated w) w.
Proof.
  unfold playNext. destruct (rowCount w =? 0); [reflexivity|].
  destruct (nextRow generated w =? -1); reflexivity.
Qed.

(** C3.  Without shuffle [playNext] goes to the row after the current one;
    past the last row it goes to row 0 when repeat is All (1) and nowhere
    when repeat is Off (0); with no visible row it does nothing.  With three
    rows and the third one current, repeat All leads to row 0 and repeat Off
    leaves the window as it is. *)
Theorem playNext_sequential :
  (forall generated w,
      shuffleEnabled_ w = false ->
      (rowCount w = 0 -> playNext generated w = w)
      /\ (currentIndex_ w + 1 < rowCount w ->
          nextRow generated w = currentIndex_ w + 1)
      /\ (rowCount w <= currentIndex_ w + 1 -> repeatMode_ w = 1 ->
          nextRow generated w = 0)
      /\ (rowCount w <= currentIndex_ w + 1 -> repeatMode_ w = 0 ->
          nextRow generated w = -1)
      /\ (rowCount w <> 0 -> nextRow generated w <> -1 ->
          playNext generated w = playIndex (nextRow generated w) w)
      /\ (nextRow generated w = -1 -> playNext generated w = w))
  /\ (rowCount atLastTrack = 3 /\ currentIndex_ atLastTrack = 2
      /\ shuffleEnabled_ atLastTrack = false /\ repeatMode_ atLastTrack = 0
      /\ nextRow 0 atLastTrack = -1
      /\ playNext 0 atLastTrack = atLastTrack)
  /\ (rowCount atLastTrackRepeatAll = 3 /\ currentIndex_ atLastTrackRepeatAll = 2
      /\ shuffleEnabled_ atLastTrackRepeatAll = false
      /\ repeatMode_ atLastTrackRepeatAll = 1
      /\ nextRow 0 atLastTrackRepeatAll = 0
      /\ playNext 0 atLastTrackRepeatAll = playIndex 0 atLastTrackRepeatAll
      /\ currentIndex_ (playNext 0 atLastTrackRepeatAll) = 0
      /\ currentFilePath_ (playNext 0 atLastTrackRepeatAll)
         = QStringLiteral "/music/alpha.mp3").
Proof.
  split; [|split; repeat split].
  intros generated w Hshuffle.
  rewrite playNext_unfold, (nextRow_sequential _ _ Hshuffle), Z.geb_leb.
  split.
  { intros ->. reflexivity. }
  split.
  { intros H. destruct (Z.leb_spec (rowCount w) (currentIndex_ w + 1)); [lia | reflexivity]. }
  split.
  { intros H ->. destruct (Z.leb_spec (rowCount w) (currentIndex_ w + 1)); [reflexivity | lia]. }
  split.
  { intros H ->. destruct (Z.leb_spec (rowCount w) (currentIndex_ w + 1)); [reflexivity | lia]. }
  split.
  { intros H0 H1. destruct (Z.eqb_spec (rowCount w) 0); [contradiction|].
    destruct (Z.eqb_spec
                (if rowCount w <=? currentIndex_ w + 1
                 then if repeatMode_ w =? 1 then 0 else -1
                 else currentIndex_ w + 1) (-1)); [contradiction | reflexivity]. }
  intros ->. destruct (rowCount w =? 0); reflexivity.
Qed.

(** The general statement applied at the third of three rows. *)
Lemma playNext_sequential_witness :
  shuffleEnabled_ atLastTrackRepeatAll = false
  /\ nextRow 0 atLastTrackRepeatAll = 0
  /\ nextRow 0 atLastTrack = -1.
Proof.
  split; [reflexivity|]. split.
  - apply (proj1 playNext_sequential 0 atLastTrackRepeatAll eq_refl);
      [vm_compute; discriminate | reflexivity].
  - apply (proj1 playNext_sequential 0 atLastTrack eq_refl);
      [vm_compute; discriminate | reflexivity].
Defined.

(** C9.  With shuffle on and at least one visible row, [playNext] takes the
    row the generator's word is scaled to.  It is a row of the view whatever
    the word and the repeat mode, so a track is always played. *)
Theorem playNext_shuffle :
  forall generated w,
    shuffleEnabled_ w = true -> 0 < rowCount w ->
    nextRow generated w = bounded generated (rowCount w)
    /\ 0 <= nextRow generated w < rowCount w
    /\ exists item,
         nth_error (proxyRows w) (Z.to_nat (nextRow generated w)) = Some item
         /\ In item (model_ w)
         /\ playNext generated w = playTrack (itemFilePath item) true w
         /\ (reachable w ->
             currentFilePath_ (playNext generated w) = itemFilePath item
             /\ playerSource_ (playNext generated w) = itemFilePath item
             /\ playerState_ (playNext generated w) = PlayingState).
Proof.
  intros generated w Hshuffle Hrows.
  pose proof (bounded_range generated (rowCount w) Hrows) as Hb.
  assert (Hnext : nextRow generated w = bounded generated (rowCount w)).
  { unfold nextRow. rewrite Hshuffle. cbv zeta. rewrite Z.geb_leb.
    destruct (Z.leb_spec (rowCount w) (bounded generated (rowCount w)));
      [lia | reflexivity]. }
  split; [exact Hnext|]. rewrite Hnext. split; [exact Hb|].
  destruct (itemAt_valid w _ Hb) as (item & Hat & Hnth & Hin).
  exists item. split; [exact Hnth|].
  split; [apply (proxyRows_model _ _ Hin)|].
  assert (Hplay : playNext generated w = playTrack (itemFilePath item) true w).
  { rewrite playNext_unfold, Hnext.
    destruct (Z.eqb_spec (rowCount w) 0); [lia|].
    destruct (Z.eqb_spec (bounded generated (rowCount w)) (-1)); [lia|].
    unfold playIndex. rewrite Hat. reflexivity. }
  split; [exact Hplay|].
  intros Hw. rewrite Hplay. apply playTrack_plays.
  pose proof (reachable_pathsInvariant w Hw) as Hpaths.
  unfold pathsInvariant in Hpaths. rewrite Forall_forall in Hpaths.
  apply Hpaths, list_elem_of_In, (proxyRows_model _ _ Hin).
Qed.

(** The statement at the last of three rows with repeat Off: the largest
    word of the generator leads to the third row again. *)
Lemma playNext_shuffle_witness :
  repeatMode_ atLastTrackShuffled = 0
  /\ nextRow 4294967295 atLastTrackShuffled = bounded 4294967295 3
  /\ 0 <= nextRow 4294967295 atLastTrackShuffled < rowCount atLastTrackShuffled.
Proof.
  split; [reflexivity|].
  destruct (playNext_shuffle 4294967295 atLastTrackShuffled) as (H1 & H2 & _).
  - reflexivity.
  - reflexivity.
  - split; [exact H1 | exact H2].
Defined.

Lemma prevRow_unfold w :
  prevRow w
  = if currentIndex_ w - 1 <? 0
    then (if repeatMode_ w =? 1 then rowCount w - 1 else -1)
    else currentIndex_ w - 1.
Proof. reflexivity. Qed.

Lemma playPrevious_history w before b c :
  playHistory_ w = before ++ [b; c] -> b <> [] ->
  playHistory_ (playPrevious w) = before ++ [b]
  /\ currentFilePath_ (playPrevious w) = b
  /\ playerSource_ (playPrevious w) = b
  /\ playerState_ (playPrevious w) = PlayingState.
Proof.
  intros Hh Hb. unfold playPrevious.
  replace (2 <=? length (playHistory_ w))%nat with true
    by (symmetry; apply Nat.leb_le; rewrite Hh, length_app; simpl; lia).
  cbv zeta. rewrite playTrack_silent.
  change (playHistory_ (setPlayHistory (removelast (playHistory_ w)) w))
    with (removelast (playHistory_ w)).
  rewrite Hh.
  change (before ++ [b; c]) with (before ++ [b] ++ [c]).
  rewrite app_assoc, removelast_last, last_last.
  split; [reflexivity|]. apply playTrack_plays, Hb.
Qed.

Lemma two_entries (history : list QString) :
  (2 <= length history)%nat -> exists before b c, history = before ++ [b; c].
Proof.
  intros H. destruct history as [|c front _] using rev_ind; [simpl in H; lia|].
  rewrite length_app in H. simpl in H.
  destruct front as [|b before _] using rev_ind; [simpl in H; lia|].
  exists before, b, c. rewrite <- app_assoc. reflexivity.
Qed.

(** C4.  With two entries or more in the history, [playPrevious] drops the
    last entry and plays the one before it, which stays the last entry and
    is not recorded again; the entries of a reachable history are non-empty
    paths, so this holds for every history the window can have.  With fewer entries it goes to the row before the
    current one; before the first row it goes to the last row when repeat is
    All (1) and nowhere otherwise. *)
Theorem playPrevious_walks_history :
  (forall w before b c,
      playHistory_ w = before ++ [b; c] -> b <> [] ->
      playHistory_ (playPrevious w) = before ++ [b]
      /\ currentFilePath_ (playPrevious w) = b
      /\ playerSource_ (playPrevious w) = b
      /\ playerState_ (playPrevious w) = PlayingState)
  /\ (forall w, reachable w -> Forall (fun p => p <> []) (playHistory_ w))
  /\ (forall w,
        reachable w -> (2 <= length (playHistory_ w))%nat ->
        playHistory_ (playPrevious w) = removelast (playHistory_ w)
        /\ currentFilePath_ (playPrevious w)
           = List.last (removelast (playHistory_ w)) []
        /\ playerState_ (playPrevious w) = PlayingState)
  /\ (forall w,
        (length (playHistory_ w) < 2)%nat ->
        (0 <= currentIndex_ w - 1 -> prevRow w = currentIndex_ w - 1)
        /\ (currentIndex_ w - 1 < 0 -> repeatMode_ w = 1 ->
            prevRow w = rowCount w - 1)
        /\ (currentIndex_ w - 1 < 0 -> repeatMode_ w <> 1 -> prevRow w = -1)
        /\ (prevRow w <> -1 -> playPrevious w = playIndex (prevRow w) w)
        /\ (prevRow w = -1 -> playPrevious w = w))
  /\ (playHistory_ playedThree
      = [QStringLiteral "/music/alpha.mp3"; QStringLiteral "/music/bravo.mp3";
         QStringLiteral "/music/charlie.mp3"]
      /\ playHistory_ (playPrevious playedThree)
         = [QStringLiteral "/music/alpha.mp3"; QStringLiteral "/music/bravo.mp3"]
      /\ currentFilePath_ (playPrevious playedThree)
         = QStringLiteral "/music/bravo.mp3"
      /\ playerState_ (playPrevious playedThree) = PlayingState).
Proof.
  split; [exact playPrevious_history|].
  split; [intros w Hw; apply (reachable_historyInvariant w Hw)|].
  split.
  { intros w Hw Hlen. destruct (two_entries _ Hlen) as (before & b & c & Hh).
    assert (Hb : b <> []).
    { destruct (reachable_historyInvariant w Hw) as [_ Hne].
      rewrite Hh in Hne. apply Forall_app in Hne as [_ Hne].
      inversion Hne; assumption. }
    destruct (playPrevious_history w before b c Hh Hb) as (H1 & H2 & _ & H4).
    rewrite H1, H2, H4, Hh.
    change (before ++ [b; c]) with (before ++ [b] ++ [c]).
    rewrite app_assoc, removelast_last, last_last. repeat split. }
  split; [|repeat split].
  intros w Hlen. rewrite prevRow_unfold.
  split.
  { intros H. destruct (Z.ltb_spec (currentIndex_ w - 1) 0); [lia | reflexivity]. }
  split.
  { intros H ->. destruct (Z.ltb_spec (currentIndex_ w - 1) 0); [reflexivity | lia]. }
  split.
  { intros H Hr. destruct (Z.ltb_spec (currentIndex_ w - 1) 0); [|lia].
    destruct (Z.eqb_spec (repeatMode_ w) 1); [contradiction | reflexivity]. }
  unfold playPrevious. rewrite prevRow_unfold.
  replace (2 <=? length (playHistory_ w))%nat with false
    by (symmetry; apply Nat.leb_gt; lia).
  split.
  - intros H. apply Z.eqb_neq in H. rewrite H. reflexivity.
  - intros H. rewrite H. reflexivity.
Qed.

(** The statement at the window that played the three tracks in a row. *)
Lemma playPrevious_walks_history_witness :
  playHistory_ (playPrevious playedThree)
  = [QStringLiteral "/music/alpha.mp3"] ++ [QStringLiteral "/music/bravo.mp3"]
  /\ currentFilePath_ (playPrevious playedThree) = QStringLiteral "/music/bravo.mp3".
Proof.
  destruct (proj1 playPrevious_walks_history playedThree
              [QStringLiteral "/music/alpha.mp3"]
              (QStringLiteral "/music/bravo.mp3")
              (QStringLiteral "/music/charlie.mp3")) as (H1 & H2 & _).
  - reflexivity.
  - discriminate.
  - split; [exact H1 | exact H2].
Defined.

(** ** Play and pause *)

Lemma playSelected_valid w :
  isValid w (currentIndex_ w) = true ->
  exists item,
    nth_error (proxyRows w) (Z.to_nat (currentIndex_ w)) = Some item
    /\ playSelected w = playTrack (itemFilePath item) true w.
Proof.
  intros H. unfold playSelected, playIndex, itemAt. rewrite H.
  unfold isValid in H. apply andb_prop in H as [H0 H1].
  apply Z.leb_le in H0. apply Z.ltb_lt in H1. unfold rowCount in H1.
  destruct (nth_error (proxyRows w) (Z.to_nat (currentIndex_ w))) as [item|] eqn:E.
  - exists item. split; reflexivity.
  - apply nth_error_None in E. lia.
Qed.

Lemma playIndex_first w :
  0 < rowCount w ->
  exists item rows,
    proxyRows w = item :: rows
    /\ playIndex 0 w = playTrack (itemFilePath item) true w.
Proof.
  intros H. unfold playIndex, itemAt, isValid.
  destruct (Z.ltb_spec 0 (rowCount w)); [|lia]. simpl.
  unfold rowCount in H. destruct (proxyRows w) as [|item rows]; [simpl in H; lia|].
  exists item, rows. split; reflexivity.
Qed.

(** C6, as the code has it.  [playPause] pauses a playing player; otherwise
    it resumes the loaded track; otherwise it plays the current row of the
    view; otherwise, when the view shows a row, it plays the first one; and
    otherwise, in particular when the filter hides every track, it does
    nothing. *)
Theorem playPause_precedence :
  forall w,
    (playerState_ w = PlayingState ->
     playPause w = setPlayerState PausedState w)
    /\ (playerState_ w <> PlayingState -> playerSource_ w <> [] ->
        playPause w = setPlayerState PlayingState w)
    /\ (playerState_ w <> PlayingState -> playerSource_ w = [] ->
        isValid w (currentIndex_ w) = true ->
        exists item,
          nth_error (proxyRows w) (Z.to_nat (currentIndex_ w)) = Some item
          /\ playPause w = playTrack (itemFilePath item) true w)
    /\ (playerState_ w <> PlayingState -> playerSource_ w = [] ->
        isValid w (currentIndex_ w) = false -> 0 < rowCount w ->
        exists item rows,
          proxyRows w = item :: rows
          /\ playPause w = playTrack (itemFilePath item) true w)
    /\ (playerState_ w <> PlayingState -> playerSource_ w = [] ->
        isValid w (currentIndex_ w) = false -> rowCount w = 0 ->
        playPause w = w).
Proof.
  intros w. unfold playPause. split.
  { intros ->. reflexivity. }
  split.
  { intros Hs Hsrc. destruct (playerState_ w); try contradiction;
      destruct (playerSource_ w); try contradiction; reflexivity. }
  split.
  { intros Hs -> Hv. rewrite Hv.
    destruct (playSelected_valid w Hv) as (item & Hnth & Hplay).
    exists item. split; [exact Hnth|].
    destruct (playerState_ w); try contradiction; exact Hplay. }
  split.
  { intros Hs -> Hv Hrows. rewrite Hv.
    destruct (playIndex_first w Hrows) as (item & rows & Hrow & Hplay).
    exists item, rows. split; [exact Hrow|].
    destruct (Z.gtb_spec (rowCount w) 0); [|lia].
    destruct (playerState_ w); try contradiction; exact Hplay. }
  intros Hs -> Hv ->. rewrite Hv.
  destruct (playerState_ w); try contradiction; reflexivity.
Qed.

(** C6, the case that departs from the specification: the catalogue holds
    three tracks, the query hides them all, nothing plays, nothing is loaded
    and no row is current; [playPause] leaves the window as it is. *)
Lemma playPause_filtered_catalogue_idle :
  count allFilteredOut = 3
  /\ rowCount allFilteredOut = 0
  /\ playerState_ allFilteredOut = StoppedState
  /\ playerSource_ allFilteredOut = []
  /\ isValid allFilteredOut (currentIndex_ allFilteredOut) = false
  /\ playPause allFilteredOut = allFilteredOut.
Proof. repeat split. Qed.

(** The amended statement at the window with three visible tracks: nothing
    is loaded and no row is current, so the first row of the view plays. *)
Lemma playPause_precedence_witness :
  exists item rows,
    proxyRows threeTracks = item :: rows
    /\ playPause threeTracks = playTrack (itemFilePath item) true threeTracks.
Proof.
  apply (proj1 (proj2 (proj2 (proj2 (playPause_precedence threeTracks))))).
  - discriminate.
  - reflexivity.
  - reflexivity.
  - reflexivity.
Defined.

(** ** End of media *)

(** C8.  At the end of the media with repeat One (2) the current file is
    played again without being recorded: the history and the current path
    are what they were.  With any other repeat mode the slot is [playNext]. *)
Theorem handleMediaStatus_repeat_one :
  forall generated w,
    (repeatMode_ w = 2 ->
     handleMediaStatus EndOfMedia generated w
     = playTrack (currentFilePath_ w) false w
     /\ playHistory_ (handleMediaStatus EndOfMedia generated w) = playHistory_ w
     /\ currentFilePath_ (handleMediaStatus EndOfMedia generated w)
        = currentFilePath_ w
     /\ (currentFilePath_ w <> [] ->
         playerSource_ (handleMediaStatus EndOfMedia generated w)
         = currentFilePath_ w
         /\ playerState_ (handleMediaStatus EndOfMedia generated w)
            = PlayingState))
    /\ (repeatMode_ w <> 2 ->
        handleMediaStatus EndOfMedia generated w = playNext generated w).
Proof.
  intros generated w. unfold handleMediaStatus. split.
  - intros ->. simpl. split; [reflexivity|].
    split; [apply playTrack_silent|].
    split.
    + unfold playTrack. destruct (isEmpty (currentFilePath_ w)); reflexivity.
    + intros H. apply (playTrack_plays _ false w H).
  - intros H. apply Z.eqb_neq in H. rewrite H. reflexivity.
Qed.

(** The statement at the third track playing with repeat One. *)
Lemma handleMediaStatus_repeat_one_witness :
  repeatMode_ playedThreeRepeatOne = 2
  /\ playHistory_ (handleMediaStatus EndOfMedia 0 playedThreeRepeatOne)
     = playHistory_ playedThreeRepeatOne
  /\ currentFilePath_ (handleMediaStatus EndOfMedia 0 playedThreeRepeatOne)
     = currentFilePath_ playedThreeRepeatOne.
Proof.
  split; [reflexivity|].
  destruct (proj1 (handleMediaStatus_repeat_one 0 playedThreeRepeatOne))
    as (_ & H1 & H2 & _).
  - reflexivity.
  - split; [exact H1 | exact H2].
Defined.

(** ** The history has no consecutive duplicates *)

Lemma historyStep_consecutive history history' :
  historyStep history history' ->
  ~ consecutiveDuplicate history -> ~ consecutiveDuplicate history'.
Proof.
  intros Hstep H. destruct Hstep as [| | p Hp Hlast].
  - exact H.
  - apply removelast_consecutive, H.
  - apply append_consecutive; assumption.
Qed.

Lemma playedThree_reachable : reachable playedThree.
Proof.
  unfold playedThree, threeTracks.
  repeat apply reachable_event. apply reachable_start.
Qed.

(** C10.  In every reachable state no path stands twice in a row in the
    history, and every event keeps it so.  An event keeps the history, drops
    its last entry, or appends a path that differs from its last entry:
    [playTrack] appends only such a path, and only when it records;
    [playPrevious] on two entries or more only removes the last one. *)
Theorem playHistory_no_consecutive_duplicates :
  (forall w, reachable w -> ~ consecutiveDuplicate (playHistory_ w))
  /\ (forall e w,
        ~ consecutiveDuplicate (playHistory_ w) ->
        ~ consecutiveDuplicate (playHistory_ (handle e w)))
  /\ (forall e w, historyStep (playHistory_ w) (playHistory_ (handle e w)))
  /\ (forall filePath recordHistory w,
        playHistory_ (playTrack filePath recordHistory w) = playHistory_ w
        \/ (playHistory_ (playTrack filePath recordHistory w)
            = playHistory_ w ++ [filePath]
            /\ recordHistory = true
            /\ filePath <> []
            /\ (playHistory_ w = [] \/ List.last (playHistory_ w) [] <> filePath)))
  /\ (forall filePath w,
        filePath <> [] ->
        playHistory_ w <> [] -> List.last (playHistory_ w) [] = filePath ->
        playHistory_ (playTrack filePath true w) = playHistory_ w)
  /\ (forall w,
        (2 <= length (playHistory_ w))%nat ->
        playHistory_ (playPrevious w) = removelast (playHistory_ w)).
Proof.
  split; [intros w Hw; apply (reachable_historyInvariant w Hw)|].
  split.
  { intros e w. apply historyStep_consecutive, handle_historyStep. }
  split; [exact handle_historyStep|].
  split.
  { intros filePath recordHistory w. rewrite playTrack_history.
    destruct (isEmpty filePath) eqn:Ep; [left; reflexivity|].
    destruct recordHistory; [|left; reflexivity].
    assert (Hp : filePath <> []) by (intros ->; discriminate).
    destruct (playHistory_ w) as [|entry history] eqn:Eh.
    - right. repeat split; auto.
    - cbn [andb orb]. destruct (bool_decide _) eqn:Ed; [left; reflexivity|].
      right. apply bool_decide_eq_false in Ed. repeat split; auto. }
  split.
  { intros filePath w Hp Hne Hlast. rewrite playTrack_history.
    destruct filePath; [contradiction|]. cbn [isEmpty andb].
    rewrite bool_decide_eq_true_2 by exact Hlast.
    destruct (playHistory_ w); [contradiction | reflexivity]. }
  intros w Hlen. unfold playPrevious.
  replace (2 <=? length (playHistory_ w))%nat with true
    by (symmetry; apply Nat.leb_le; exact Hlen).
  cbv zeta. rewrite playTrack_silent. reflexivity.
Qed.

(** The statement at the window that played the three tracks in a row. *)
Lemma playHistory_no_consecutive_duplicates_witness :
  reachable playedThree /\ ~ consecutiveDuplicate (playHistory_ playedThree).
Proof.
  split; [exact playedThree_reachable|].
  apply (proj1 playHistory_no_consecutive_duplicates), playedThree_reachable.
Defined.

(** ** Words and the normal form *)

Section WordFacts.

Lemma wordsOf_space c r : isSpace c = true -> wordsOf (c :: r) = wordsOf r.
Proof. intros H. simpl. rewrite H. reflexivity. Qed.

Lemma wordsOf_word c r :
  isSpace c = false ->
  wordsOf (c :: r)
  = if startsWithSpace r || isEmpty r then [c] :: wordsOf r
    else consWord c (wordsOf r).
Proof. intros H. simpl. rewrite H. reflexivity. Qed.

Lemma wordsOf_cons_word c r :
  isSpace c = false -> exists word words, wordsOf (c :: r) = word :: words.
Proof.
  intros H. rewrite (wordsOf_word _ _ H).
  destruct (startsWithSpace r || isEmpty r); [eauto|].
  destruct (wordsOf r); simpl; eauto.
Qed.

Lemma wordsOf_starts r :
  startsWithSpace r = false -> isEmpty r = false ->
  exists word words, wordsOf r = word :: words.
Proof.
  destruct r as [|c r]; [discriminate|]. simpl startsWithSpace.
  intros H _. apply wordsOf_cons_word, H.
Qed.

(** [simplifiedFrom] joins the words, after one space when the text starts
    with white space. *)
Lemma simplifiedFrom_words s :
  simplifiedFrom s
  = match wordsOf s with
    | [] => []
    | _ :: _ => if startsWithSpace s then [space] else []
    end ++ join [space] (wordsOf s).
Proof.
  induction s as [|c r IH]; [reflexivity|].
  destruct (isSpace c) eqn:Ec.
  - rewrite (simplifiedFrom_space _ _ Ec), (wordsOf_space _ _ Ec).
    change (startsWithSpace (c :: r)) with (isSpace c). rewrite Ec.
    destruct r as [|c' r']; [reflexivity|].
    destruct (isSpace c') eqn:Ec'.
    + rewrite IH. change (startsWithSpace (c' :: r')) with (isSpace c').
      rewrite Ec'. reflexivity.
    + rewrite IH. change (startsWithSpace (c' :: r')) with (isSpace c').
      rewrite Ec'.
      destruct (wordsOf_cons_word c' r' Ec') as (word & words & ->). reflexivity.
  - rewrite (simplifiedFrom_word _ _ Ec), (wordsOf_word _ _ Ec), IH.
    change (startsWithSpace (c :: r)) with (isSpace c). rewrite Ec.
    destruct r as [|c' r']; [reflexivity|].
    change (startsWithSpace (c' :: r')) with (isSpace c').
    change (isEmpty (c' :: r')) with false. rewrite orb_false_r.
    destruct (isSpace c') eqn:Ec'.
    + destruct (wordsOf (c' :: r')) as [|word words]; reflexivity.
    + destruct (wordsOf_cons_word c' r' Ec') as (word & words & ->).
      simpl. destruct words; reflexivity.
Qed.

Lemma wordsOf_skipSpaces s : wordsOf (skipSpaces s) = wordsOf s.
Proof.
  induction s as [|c r IH]; [reflexivity|].
  simpl skipSpaces. destruct (isSpace c) eqn:Ec; [|reflexivity].
  rewrite IH, (wordsOf_space _ _ Ec). reflexivity.
Qed.

Lemma simplified_words s : simplified s = join [space] (wordsOf s).
Proof.
  unfold simplified. rewrite simplifiedFrom_words, startsWithSpace_skipSpaces.
  rewrite wordsOf_skipSpaces. destruct (wordsOf s); reflexivity.
Qed.

Lemma replaceSpaceRuns_starts s :
  startsWithSpace (replaceSpaceRuns s) = startsWithSpace s
  /\ isEmpty (replaceSpaceRuns s) = isEmpty s.
Proof.
  induction s as [|c r IH]; [split; reflexivity|].
  destruct (isRegexSpace c) eqn:Ec.
  - rewrite (replaceSpaceRuns_space _ _ Ec).
    pose proof (isRegexSpace_isSpace _ Ec) as Hc. simpl startsWithSpace at 2.
    rewrite Hc. destruct r as [|c' r']; [split; reflexivity|].
    destruct (isRegexSpace c') eqn:Ec'; [|split; reflexivity].
    destruct IH as [IH1 IH2]. rewrite IH1, IH2. simpl.
    rewrite (isRegexSpace_isSpace _ Ec'). split; reflexivity.
  - rewrite (replaceSpaceRuns_word _ _ Ec). split; reflexivity.
Qed.

Lemma wordsOf_replaceSpaceRuns s : wordsOf (replaceSpaceRuns s) = wordsOf s.
Proof.
  induction s as [|c r IH]; [reflexivity|].
  destruct (isRegexSpace c) eqn:Ec.
  - rewrite (replaceSpaceRuns_space _ _ Ec).
    rewrite (wordsOf_space c r (isRegexSpace_isSpace _ Ec)).
    destruct r as [|c' r']; [reflexivity|].
    destruct (isRegexSpace c'); [exact IH|].
    rewrite (wordsOf_space space _ isSpace_space). exact IH.
  - rewrite (replaceSpaceRuns_word _ _ Ec).
    destruct (isSpace c) eqn:Es.
    + rewrite !(wordsOf_space c _ Es). exact IH.
    + rewrite !(wordsOf_word c _ Es), IH.
      destruct (replaceSpaceRuns_starts r) as [-> ->]. reflexivity.
Qed.

(** The normal form is made of the words of the text, once lower-cased and
    with the two separators read as spaces, joined by single spaces. *)
Lemma normalizeText_words text :
  normalizeText text
  = join [space] (wordsOf (map (fun c => separatorsToSpace (toLowerChar c)) text)).
Proof.
  rewrite normalizeText_unfold, simplified_words, wordsOf_replaceSpaceRuns.
  reflexivity.
Qed.

(** A word is not empty and holds no white space. *)
Lemma wordsOf_plain s :
  Forall (fun word => word <> [] /\ Forall (fun c => isSpace c = false) word)
         (wordsOf s).
Proof.
  induction s as [|c r IH]; [constructor|].
  destruct (isSpace c) eqn:Ec.
  - rewrite (wordsOf_space _ _ Ec). exact IH.
  - rewrite (wordsOf_word _ _ Ec).
    destruct (startsWithSpace r || isEmpty r).
    + constructor; [|exact IH]. split; [discriminate|].
      constructor; [exact Ec | constructor].
    + destruct IH as [|word words [_ Hword] Hwords]; simpl.
      * constructor; [|constructor]. split; [discriminate|].
        constructor; [exact Ec | constructor].
      * constructor; [|exact Hwords]. split; [discriminate|].
        constructor; assumption.
Qed.

Lemma word_space_free (word : QString) :
  Forall (fun c => isSpace c = false) word -> ~ In space word.
Proof.
  intros H Hin. rewrite Forall_forall in H.
  apply list_elem_of_In, H in Hin. discriminate.
Qed.

(** Splitting the joined words at the spaces gives the words back. *)
Lemma split_join_words words :
  Forall (fun word => word <> [] /\ Forall (fun c => isSpace c = false) word)
         words ->
  splitSkipEmptyParts space (join [space] words) = words.
Proof.
  unfold splitSkipEmptyParts.
  induction 1 as [|word words [Hne Hword] Hwords IH]; [reflexivity|].
  destruct words as [|word' words'].
  - simpl join. rewrite (split_plain _ _ (word_space_free _ Hword)).
    destruct word; [contradiction | reflexivity].
  - change (join [space] (word :: word' :: words'))
      with (word ++ space :: join [space] (word' :: words')).
    rewrite split_app, (split_plain _ _ (word_space_free _ Hword)).
    rewrite List.filter_app, IH.
    destruct word; [contradiction | reflexivity].
Qed.

Lemma wordsOf_app a b :
  wordsOf (a ++ space :: b) = wordsOf a ++ wordsOf b.
Proof.
  induction a as [|c a IH].
  - apply (wordsOf_space space b isSpace_space).
  - simpl app. destruct (isSpace c) eqn:Ec.
    + rewrite !(wordsOf_space c _ Ec). exact IH.
    + rewrite !(wordsOf_word c _ Ec), IH.
      destruct a as [|c' a'].
      * reflexivity.
      * change (startsWithSpace ((c' :: a') ++ space :: b)) with (isSpace c').
        change (startsWithSpace (c' :: a')) with (isSpace c').
        change (isEmpty ((c' :: a') ++ space :: b)) with false.
        change (isEmpty (c' :: a')) with false. rewrite !orb_false_r.
        destruct (isSpace c') eqn:Ec'; [reflexivity|].
        destruct (wordsOf_cons_word c' a' Ec') as (word & words & ->).
        reflexivity.
Qed.

Lemma join_isSubstring sep word words :
  In word words -> isSubstring word (join sep words).
Proof.
  induction words as [|w words IH]; [intros []|].
  intros [-> | Hin].
  - destruct words as [|w' words'].
    + exists [], []. simpl. rewrite app_nil_r. reflexivity.
    + exists [], (sep ++ join sep (w' :: words')). reflexivity.
  - destruct (IH Hin) as (l & r & E). destruct words as [|w' words']; [destruct Hin|].
    change (join sep (w :: w' :: words'))
      with (w ++ sep ++ join sep (w' :: words')).
    rewrite E. exists (w ++ sep ++ l), r. rewrite <- !app_assoc. reflexivity.
Qed.

End WordFacts.

(** ** More on the normal form and the search filter *)

Lemma separatorsToSpace_space :
  separatorsToSpace (toLowerChar space) = space.
Proof. reflexivity. Qed.

Lemma setFilterText_words text w :
  tokens_ (setFilterText text w)
  = wordsOf (map (fun c => separatorsToSpace (toLowerChar c)) text).
Proof.
  unfold setFilterText. cbv zeta. cbn [tokens_].
  rewrite normalizeText_words. apply split_join_words, wordsOf_plain.
Qed.

Lemma wordsOf_single word :
  word <> [] -> Forall (fun c => isSpace c = false) word -> wordsOf word = [word].
Proof.
  intros Hne H. induction H as [|c r Hc Hr IH]; [contradiction|].
  rewrite (wordsOf_word _ _ Hc). destruct r as [|c' r']; [reflexivity|].
  change (startsWithSpace (c' :: r')) with (isSpace c').
  inversion Hr as [|? ? Hc' _]; subst. rewrite Hc'. cbn [orb isEmpty].
  rewrite IH by discriminate. reflexivity.
Qed.

Lemma wordsOf_join words :
  Forall (fun word => word <> [] /\ Forall (fun c => isSpace c = false) word)
         words ->
  wordsOf (join [space] words) = words.
Proof.
  induction 1 as [|word words [Hne Hword] Hwords IH]; [reflexivity|].
  destruct words as [|word' words'].
  - apply wordsOf_single; assumption.
  - change (join [space] (word :: word' :: words'))
      with (word ++ space :: join [space] (word' :: words')).
    rewrite wordsOf_app, IH, (wordsOf_single _ Hne Hword). reflexivity.
Qed.

(** X1.  The normal form of a text is the list of its words, taken after
    lower-casing and with ['_'] and ['-'] read as spaces, joined by single
    spaces; a word is a maximal run of characters that are no white space.
    The normal form has exactly these words. *)
Theorem normalizeText_joins_words :
  forall text,
    normalizeText text
    = join [space]
        (wordsOf (map (fun c => separatorsToSpace (toLowerChar c)) text))
    /\ wordsOf (normalizeText text)
       = wordsOf (map (fun c => separatorsToSpace (toLowerChar c)) text)
    /\ Forall (fun word => word <> [] /\ Forall (fun c => isSpace c = false) word)
              (wordsOf (normalizeText text)).
Proof.
  intros text. split; [apply normalizeText_words|].
  assert (E : wordsOf (normalizeText text)
              = wordsOf (map (fun c => separatorsToSpace (toLowerChar c)) text)).
  { rewrite normalizeText_words. apply wordsOf_join, wordsOf_plain. }
  split; [exact E|]. apply wordsOf_plain.
Qed.

(** X2.  The tokens the filter keeps after [setFilterText] are the words of
    the query, and the filter text is these words joined by single spaces;
    two queries with the same words give the same filter. *)
Theorem setFilterText_tokens_are_words :
  forall text text' w,
    tokens_ (setFilterText text w)
    = wordsOf (map (fun c => separatorsToSpace (toLowerChar c)) text)
    /\ filterText_ (setFilterText text w)
       = join [space] (tokens_ (setFilterText text w))
    /\ (wordsOf (map (fun c => separatorsToSpace (toLowerChar c)) text)
        = wordsOf (map (fun c => separatorsToSpace (toLowerChar c)) text') ->
        setFilterText text w = setFilterText text' w).
Proof.
  intros text text' w. split; [apply setFilterText_words|]. split.
  - rewrite setFilterText_words. apply normalizeText_words.
  - intros E. unfold setFilterText. cbv zeta.
    rewrite (normalizeText_words text), (normalizeText_words text'), E.
    reflexivity.
Qed.

Lemma filterAcceptsRow_incl tokens tokens' item :
  incl tokens tokens' ->
  filterAcceptsRow tokens' item = true -> filterAcceptsRow tokens item = true.
Proof.
  intros Hincl H. apply filterAcceptsRow_spec.
  apply filterAcceptsRow_spec in H as [H | [H | H]].
  - left. subst tokens'. destruct tokens as [|t ts]; [reflexivity|].
    destruct (Hincl t (or_introl eq_refl)).
  - right. left. exact H.
  - right. right. intros token Hin. apply H, Hincl, Hin.
Qed.

Lemma length_filter_le {A} (p q : A -> bool) (l : list A) :
  (forall x, p x = true -> q x = true) ->
  (length (List.filter p l) <= length (List.filter q l))%nat.
Proof.
  intros H. induction l as [|x l IH]; [reflexivity|].
  simpl. destruct (p x) eqn:Ep.
  - rewrite (H x Ep). simpl. lia.
  - destruct (q x); simpl; lia.
Qed.

(** X3.  Only the set of tokens matters to the filter: two lists with the
    same members accept the same rows, whatever the order and the
    repetitions.  A row accepted for a list of tokens is accepted for any
    part of it, so more words in the query never show more rows. *)
Theorem filterAcceptsRow_token_set :
  (forall tokens tokens' item,
      (forall token, In token tokens <-> In token tokens') ->
      filterAcceptsRow tokens item = filterAcceptsRow tokens' item)
  /\ (forall tokens tokens' item,
        incl tokens tokens' ->
        filterAcceptsRow tokens' item = true ->
        filterAcceptsRow tokens item = true)
  /\ (forall text text' w,
        incl (tokens_ (setFilterText text w)) (tokens_ (setFilterText text' w)) ->
        rowCount (setFilterText text' w) <= rowCount (setFilterText text w)).
Proof.
  split.
  { intros tokens tokens' item H. apply eq_true_iff_eq. split.
    - apply filterAcceptsRow_incl. intros t Ht. apply H, Ht.
    - apply filterAcceptsRow_incl. intros t Ht. apply H, Ht. }
  split; [exact filterAcceptsRow_incl|].
  intros text text' w H. unfold rowCount, proxyRows.
  rewrite !length_sortRows. apply inj_le.
  change (model_ (setFilterText text' w)) with (model_ w).
  change (model_ (setFilterText text w)) with (model_ w).
  apply length_filter_le. intros item. apply filterAcceptsRow_incl, H.
Qed.

(** The statement for the queries "song title" and "title song title". *)
Lemma filterAcceptsRow_token_set_witness :
  filterAcceptsRow (tokens_ songTitleQuery)
    (rowWithKey (QStringLiteral "my song title.mp3"))
  = filterAcceptsRow
      (tokens_ (setFilterText (QStringLiteral "title song title") initialWindow))
      (rowWithKey (QStringLiteral "my song title.mp3")).
Proof.
  apply (proj1 filterAcceptsRow_token_set).
  intros token. simpl. intuition.
Defined.

Lemma trackItem_key filePath :
  itemSearchKey (trackItem filePath)
  = join [space]
      (wordsOf (map (fun c => separatorsToSpace (toLowerChar c))
                    (QFileInfo.completeBaseName filePath))
       ++ wordsOf (map (fun c => separatorsToSpace (toLowerChar c))
                       (QFileInfo.fileName filePath))
       ++ wordsOf (map (fun c => separatorsToSpace (toLowerChar c))
                       (QFileInfo.absolutePath filePath))).
Proof.
  unfold trackItem. cbn [itemSearchKey]. rewrite normalizeText_words.
  change (QFileInfo.completeBaseName filePath ++ [space]
          ++ QFileInfo.fileName filePath ++ [space]
          ++ QFileInfo.absolutePath filePath)
    with (QFileInfo.completeBaseName filePath ++ space
          :: (QFileInfo.fileName filePath ++ space
              :: QFileInfo.absolutePath filePath)).
  rewrite !map_app. cbn [map]. rewrite !separatorsToSpace_space.
  rewrite map_app. cbn [map]. rewrite separatorsToSpace_space.
  rewrite !wordsOf_app. reflexivity.
Qed.

Lemma trackItem_found filePath query w :
  incl (wordsOf (map (fun c => separatorsToSpace (toLowerChar c)) query))
       (wordsOf (map (fun c => separatorsToSpace (toLowerChar c))
                     (QFileInfo.completeBaseName filePath))
        ++ wordsOf (map (fun c => separatorsToSpace (toLowerChar c))
                        (QFileInfo.fileName filePath))
        ++ wordsOf (map (fun c => separatorsToSpace (toLowerChar c))
                        (QFileInfo.absolutePath filePath))) ->
  filterAcceptsRow (tokens_ (setFilterText query w)) (trackItem filePath) = true.
Proof.
  intros H. apply filterAcceptsRow_spec. right. right.
  rewrite setFilterText_words, trackItem_key.
  intros token Hin. apply join_isSubstring, H, Hin.
Qed.

Lemma toLowerChar_upperCaseLetter c :
  toLowerChar (upperCaseLetter c) = toLowerChar c.
Proof. destruct c as [[] [] [] [] [] [] [] []]; vm_compute; reflexivity. Qed.

(** Texts that are the same up to case have the same words once
    normalised. *)
Lemma sameUpToCase_words a b :
  sameUpToCase a b ->
  map (fun c => separatorsToSpace (toLowerChar c)) a
  = map (fun c => separatorsToSpace (toLowerChar c)) b.
Proof.
  intros H.
  assert (E : forall s,
             map (fun c => separatorsToSpace (toLowerChar c)) s
             = map (fun c => separatorsToSpace (toLowerChar c))
                   (map upperCaseLetter s)).
  { intros s. rewrite map_map. apply map_ext. intros c. cbv beta.
    rewrite toLowerChar_upperCaseLetter. reflexivity. }
  rewrite (E a), (E b). unfold sameUpToCase in H. rewrite H. reflexivity.
Qed.

(** X4.  A track of the catalogue is found by its own names, in any case:
    the row that [addTrack] builds for a path passes the filter whenever the
    query is, up to the case of its letters, the title of the track, its
    file name or its directory. *)
Theorem trackItem_found_by_its_names :
  forall filePath query w,
    sameUpToCase query (QFileInfo.completeBaseName filePath)
    \/ sameUpToCase query (QFileInfo.fileName filePath)
    \/ sameUpToCase query (QFileInfo.absolutePath filePath) ->
    filterAcceptsRow (tokens_ (setFilterText query w)) (trackItem filePath) = true.
Proof.
  intros filePath query w H. apply trackItem_found.
  destruct H as [H | [H | H]]; rewrite (sameUpToCase_words _ _ H);
    intros t Ht; apply in_or_app.
  - left. exact Ht.
  - right. apply in_or_app. left. exact Ht.
  - right. apply in_or_app. right. exact Ht.
Qed.

(** The statement for the query "MY-SONG" and the file "My-Song.mp3". *)
Lemma trackItem_found_by_its_names_witness :
  QFileInfo.completeBaseName (QStringLiteral "/music/My-Song.mp3")
  = QStringLiteral "My-Song"
  /\ filterAcceptsRow
       (tokens_ (setFilterText (QStringLiteral "MY-SONG") initialWindow))
       (trackItem (QStringLiteral "/music/My-Song.mp3")) = true.
Proof.
  split; [reflexivity|].
  apply trackItem_found_by_its_names. left. reflexivity.
Defined.

(** *** The view and the catalogue *)

Lemma insertRow_Permutation x rows : Permutation (insertRow x rows) (x :: rows).
Proof.
  induction rows as [|y rows IH]; simpl; [reflexivity|].
  destruct (lessThan y x); [|reflexivity].
  rewrite IH. apply perm_swap.
Qed.

Lemma sortRows_Permutation rows : Permutation (sortRows rows) rows.
Proof.
  induction rows as [|x rows IH]; simpl; [reflexivity|].
  rewrite insertRow_Permutation, IH. reflexivity.
Qed.

Lemma length_filter_bound {A} (p : A -> bool) (l : list A) :
  (length (List.filter p l) <= length l)%nat.
Proof.
  induction l as [|x l IH]; [reflexivity|]. simpl. destruct (p x); simpl; lia.
Qed.

Lemma filter_all {A} (p : A -> bool) (l : list A) :
  (forall x, p x = true) -> List.filter p l = l.
Proof.
  intros H. induction l as [|x l IH]; [reflexivity|].
  simpl. rewrite H, IH. reflexivity.
Qed.

(** X5.  The view shows rows of the catalogue only: its rows are, in some
    order, the rows of the model that pass the filter, so there are never
    more visible rows than tracks; with no token, in particular after the
    search text is cleared, every track is visible. *)
Theorem proxyRows_within_catalogue :
  forall w,
    Permutation (proxyRows w)
                (List.filter (filterAcceptsRow (tokens_ w)) (model_ w))
    /\ (forall item,
          In item (proxyRows w)
          <-> In item (model_ w) /\ filterAcceptsRow (tokens_ w) item = true)
    /\ 0 <= rowCount w <= count w
    /\ (tokens_ w = [] -> rowCount w = count w)
    /\ rowCount (onSearchTextChanged [] w) = count w.
Proof.
  intros w. split; [apply sortRows_Permutation|].
  split.
  { intros item. unfold proxyRows. rewrite sortRows_In. apply filter_In. }
  assert (Hall : forall w', tokens_ w' = [] -> rowCount w' = count w').
  { intros w' H. unfold rowCount, count, proxyRows.
    rewrite length_sortRows, H, filter_all; reflexivity. }
  split.
  { unfold rowCount, count, proxyRows. rewrite length_sortRows.
    pose proof (length_filter_bound (filterAcceptsRow (tokens_ w)) (model_ w)).
    lia. }
  split; [apply Hall|].
  rewrite Hall; reflexivity.
Qed.

(** ** The catalogue only grows *)

Section GrowthFacts.

Lemma isPrefix_refl {A} (l : list A) : isPrefix l l.
Proof. exists []. symmetry. apply app_nil_r. Qed.

Lemma isPrefix_trans {A} (a b c : list A) :
  isPrefix a b -> isPrefix b c -> isPrefix a c.
Proof.
  intros [r1 ->] [r2 ->]. exists (r1 ++ r2). rewrite app_assoc. reflexivity.
Qed.

Lemma isPrefix_length {A} (a b : list A) :
  isPrefix a b -> (length a <= length b)%nat.
Proof. intros [r ->]. rewrite length_app. lia. Qed.

Lemma addTrack_grows filePath w :
  isPrefix (model_ w) (model_ (addTrack filePath w))
  /\ trackSet_ w ⊆ trackSet_ (addTrack filePath w).
Proof.
  unfold addTrack. destruct (decide _); simpl.
  - split; [apply isPrefix_refl | set_solver].
  - split; [exists [trackItem filePath]; reflexivity | set_solver].
Qed.

Lemma addFolder_grows dir entries w :
  isPrefix (model_ w) (model_ (addFolder dir entries w))
  /\ trackSet_ w ⊆ trackSet_ (addFolder dir entries w).
Proof.
  unfold addFolder. destruct (isEmpty dir);
    [split; [apply isPrefix_refl | set_solver]|].
  unfold scanFolder. generalize (QDirIterator.listAll kFilters dir entries).
  intros paths. revert w. induction paths as [|p paths IH]; intros w;
    [split; [apply isPrefix_refl | set_solver]|].
  simpl. destruct (IH (addTrack p w)) as [H1 H2].
  destruct (addTrack_grows p w) as [H3 H4].
  split; [eapply isPrefix_trans; eassumption | etrans; eassumption].
Qed.

Lemma handle_grows e w :
  isPrefix (model_ w) (model_ (handle e w))
  /\ trackSet_ w ⊆ trackSet_ (handle e w).
Proof.
  pose proof (handle_catalogue e w) as F.
  destruct e;
    try (rewrite (proj1 F), (proj2 F); split; [apply isPrefix_refl | reflexivity]).
  apply addFolder_grows.
Qed.

Lemma run_grows events w :
  isPrefix (model_ w) (model_ (run events w))
  /\ trackSet_ w ⊆ trackSet_ (run events w).
Proof.
  unfold run. revert w. induction events as [|e events IH]; intros w;
    [split; [apply isPrefix_refl | set_solver]|].
  simpl. destruct (IH (handle e w)) as [H1 H2].
  destruct (handle_grows e w) as [H3 H4].
  split; [eapply isPrefix_trans; eassumption | etrans; eassumption].
Qed.

End GrowthFacts.

(** X6.  No event removes or reorders a track: after any sequence of events
    the rows of the catalogue start with the rows it had, the known paths
    are still known, and the count has not gone down. *)
Theorem catalogue_only_grows :
  forall events w,
    isPrefix (model_ w) (model_ (run events w))
    /\ trackSet_ w ⊆ trackSet_ (run events w)
    /\ count w <= count (run events w).
Proof.
  intros events w. destruct (run_grows events w) as [H1 H2].
  split; [exact H1|]. split; [exact H2|].
  unfold count. apply inj_le, isPrefix_length, H1.
Qed.

(** ** Scanning again *)

Lemma fold_addTrack_known paths w :
  (forall p, In p paths -> p ∈ trackSet_ w) ->
  fold_left (fun w filePath => addTrack filePath w) paths w = w.
Proof.
  induction paths as [|p paths IH]; intros H; [reflexivity|].
  simpl. rewrite addTrack_known by (apply H; left; reflexivity).
  apply IH. intros q Hq. apply H. right. exact Hq.
Qed.

(** X7.  Scanning a folder a second time changes nothing, and the set of
    known paths after two scans does not depend on their order. *)
Theorem scanFolder_again :
  forall path entries path' entries' w,
    scanFolder path entries (scanFolder path entries w)
    = scanFolder path entries w
    /\ addFolder path entries (addFolder path entries w)
       = addFolder path entries w
    /\ trackSet_ (scanFolder path entries (scanFolder path' entries' w))
       = trackSet_ (scanFolder path' entries' (scanFolder path entries w)).
Proof.
  intros path entries path' entries' w.
  assert (H1 : scanFolder path entries (scanFolder path entries w)
               = scanFolder path entries w).
  { unfold scanFolder at 1. apply fold_addTrack_known.
    intros p Hp. unfold scanFolder. apply fold_addTrack_trackSet. right. exact Hp. }
  split; [exact H1|]. split.
  - unfold addFolder. destruct (isEmpty path); [reflexivity | exact H1].
  - apply set_eq. intros p. unfold scanFolder.
    rewrite !fold_addTrack_trackSet. intuition.
Qed.

(** ** What playing keeps true *)

Section PlaybackFacts.

Lemma playTrack_fields filePath recordHistory w :
  filePath <> [] ->
  playerSource_ (playTrack filePath recordHistory w) = filePath
  /\ currentFilePath_ (playTrack filePath recordHistory w) = filePath
  /\ playerState_ (playTrack filePath recordHistory w) = PlayingState
  /\ shuffleEnabled_ (playTrack filePath recordHistory w) = shuffleEnabled_ w
  /\ repeatMode_ (playTrack filePath recordHistory w) = repeatMode_ w
  /\ currentIndex_ (playTrack filePath recordHistory w)
     = match findRow (proxyRows w) filePath 0 with
       | Some row => row
       | None => currentIndex_ w
       end.
Proof.
  intros H. unfold playTrack. destruct filePath; [contradiction|]. repeat split.
Qed.

Lemma playTrack_empty recordHistory w : playTrack [] recordHistory w = w.
Proof. reflexivity. Qed.

Lemma playTrack_playbackInvariant filePath recordHistory w :
  playbackInvariant w ->
  In filePath (filePaths w) ->
  recordHistory = true \/ List.last (playHistory_ w) [] = filePath ->
  playbackInvariant (playTrack filePath recordHistory w).
Proof.
  intros (Hsrc & Hlast & Hin) Hp Hrec.
  destruct filePath as [|c p]; [exact (conj Hsrc (conj Hlast Hin))|].
  unfold playbackInvariant, filePaths.
  destruct (playTrack_catalogue (c :: p) recordHistory w) as (-> & _ & _).
  destruct (playTrack_fields (c :: p) recordHistory w) as (-> & -> & _);
    [discriminate|].
  split; [reflexivity|]. rewrite playTrack_history. cbn [isEmpty].
  destruct (recordHistory
            && (match playHistory_ w with [] => true | _ => false end
                || negb (bool_decide (List.last (playHistory_ w) [] = c :: p))))
    eqn:E.
  - split; [apply last_last|]. apply Forall_app. split; [exact Hin|].
    constructor; [exact Hp | constructor].
  - split; [|exact Hin].
    destruct Hrec as [-> | Hrec]; [|exact Hrec].
    cbn [andb] in E. apply orb_false_elim in E as [E1 E2].
    apply negb_false_iff, bool_decide_eq_true in E2. exact E2.
Qed.

Lemma playIndex_playbackInvariant row w :
  playbackInvariant w -> playbackInvariant (playIndex row w).
Proof.
  intros H. unfold playIndex, itemAt.
  destruct (isValid w row); [|exact H].
  destruct (nth_error (proxyRows w) (Z.to_nat row)) as [item|] eqn:E; [|exact H].
  apply playTrack_playbackInvariant; [exact H | | left; reflexivity].
  apply nth_error_In, proxyRows_model in E as [E _].
  unfold filePaths. apply in_map, E.
Qed.

Lemma playNext_playbackInvariant generated w :
  playbackInvariant w -> playbackInvariant (playNext generated w).
Proof.
  intros H. rewrite playNext_unfold. destruct (rowCount w =? 0); [exact H|].
  destruct (_ =? -1); [exact H | apply playIndex_playbackInvariant, H].
Qed.

Lemma playbackInvariant_current w :
  playbackInvariant w ->
  currentFilePath_ w = [] \/ In (currentFilePath_ w) (filePaths w).
Proof.
  intros (_ & Hlast & Hin).
  destruct (playHistory_ w) as [|x front _] using rev_ind.
  - left. symmetry. exact Hlast.
  - right. rewrite last_last in Hlast. subst.
    apply Forall_app in Hin as [_ Hin]. inversion Hin; assumption.
Qed.

Lemma playPrevious_playbackInvariant w :
  historyInvariant w -> playbackInvariant w -> playbackInvariant (playPrevious w).
Proof.
  intros [_ Hne] H. unfold playPrevious.
  destruct (Nat.leb_spec 2 (length (playHistory_ w))) as [Hlen | Hlen].
  - cbv zeta. destruct (two_entries _ Hlen) as (before & b & c & Hh).
    destruct H as (Hsrc & Hlast & Hin).
    rewrite Hh in Hne, Hin.
    change (before ++ [b; c]) with (before ++ [b] ++ [c]) in Hne, Hin.
    rewrite app_assoc in Hne, Hin.
    apply Forall_app in Hne as [Hne _]. apply Forall_app in Hin as [Hin _].
    assert (Hb : b <> []).
    { apply Forall_app in Hne as [_ Hne]. inversion Hne; assumption. }
    assert (Hbin : In b (filePaths w)).
    { apply Forall_app in Hin as [_ Hb']. inversion Hb'; assumption. }
    set (w' := setPlayHistory (removelast (playHistory_ w)) w).
    assert (Hh' : playHistory_ w' = before ++ [b]).
    { unfold w'. cbn [setPlayHistory playHistory_]. rewrite Hh.
      change (before ++ [b; c]) with (before ++ [b] ++ [c]).
      rewrite app_assoc. apply removelast_last. }
    unfold playbackInvariant, filePaths.
    destruct (playTrack_catalogue (List.last (playHistory_ w') []) false w')
      as (-> & _ & _).
    rewrite playTrack_silent, Hh', last_last.
    destruct (playTrack_fields b false w' Hb) as (-> & -> & _).
    repeat split. exact Hin.
  - destruct (negb _); [apply playIndex_playbackInvariant, H | exact H].
Qed.

Lemma playPause_playbackInvariant w :
  playbackInvariant w -> playbackInvariant (playPause w).
Proof.
  intros H. unfold playPause, playSelected.
  destruct (playerState_ w); try exact H;
    (destruct (negb _); [exact H|]);
    (destruct (isValid _ _); [apply playIndex_playbackInvariant, H|]);
    (destruct (rowCount w >? 0); [apply playIndex_playbackInvariant, H | exact H]).
Qed.

Lemma handleMediaStatus_playbackInvariant status generated w :
  playbackInvariant w -> playbackInvariant (handleMediaStatus status generated w).
Proof.
  intros H. unfold handleMediaStatus. destruct status; try exact H.
  destruct (repeatMode_ w =? 2); [|apply playNext_playbackInvariant, H].
  destruct (playbackInvariant_current w H) as [E | Hin].
  - rewrite E. exact H.
  - apply playTrack_playbackInvariant; [exact H | exact Hin |].
    right. apply H.
Qed.

Lemma addFolder_playbackInvariant dir entries w :
  playbackInvariant w -> playbackInvariant (addFolder dir entries w).
Proof.
  intros (Hsrc & Hlast & Hin). unfold playbackInvariant.
  destruct (addFolder_playback dir entries w) as (-> & -> & -> & _).
  split; [exact Hsrc|]. split; [exact Hlast|].
  destruct (addFolder_grows dir entries w) as [[rest Hgrow] _].
  unfold filePaths. rewrite Hgrow, map_app.
  eapply Forall_impl; [exact Hin|].
  intros p Hp. apply in_or_app. left. exact Hp.
Qed.

Lemma handle_playbackInvariant e w :
  historyInvariant w -> playbackInvariant w -> playbackInvariant (handle e w).
Proof.
  intros Hh H. destruct e; simpl; try exact H.
  - apply addFolder_playbackInvariant, H.
  - unfold playSelected. apply playIndex_playbackInvariant, H.
  - apply playPause_playbackInvariant, H.
  - apply playNext_playbackInvariant, H.
  - apply playPrevious_playbackInvariant; assumption.
  - apply handleMediaStatus_playbackInvariant, H.
Qed.

Lemma reachable_playbackInvariant w : reachable w -> playbackInvariant w.
Proof.
  induction 1 as [musicDir entries | e w Hw IH].
  - apply addFolder_playbackInvariant. repeat split. constructor.
  - apply handle_playbackInvariant; [apply reachable_historyInvariant, Hw | exact IH].
Qed.

End PlaybackFacts.

(** X8.  In every reachable state the source of the player is the current
    file, the last entry of the history is the current file (both are empty
    before the first track plays), and the current file and every entry of
    the history are paths of the catalogue. *)
Theorem playback_follows_current_file :
  forall w,
    reachable w ->
    playerSource_ w = currentFilePath_ w
    /\ List.last (playHistory_ w) [] = currentFilePath_ w
    /\ Forall (fun p => In p (filePaths w)) (playHistory_ w)
    /\ (currentFilePath_ w = [] \/ In (currentFilePath_ w) (filePaths w))
    /\ (currentFilePath_ w = [] <-> playHistory_ w = []).
Proof.
  intros w Hw. pose proof (reachable_playbackInvariant w Hw) as H.
  destruct H as (Hsrc & Hlast & Hin).
  split; [exact Hsrc|]. split; [exact Hlast|]. split; [exact Hin|].
  split; [apply playbackInvariant_current; repeat split; assumption|].
  split.
  - intros E. destruct (reachable_historyInvariant w Hw) as [_ Hne].
    revert Hlast Hne. generalize (playHistory_ w). intros history Hlast Hne.
    destruct history as [|x front _] using rev_ind; [reflexivity|].
    rewrite last_last in Hlast. subst x.
    apply Forall_app in Hne as [_ Hne]. inversion Hne; subst. contradiction.
  - intros E. rewrite E in Hlast. symmetry. exact Hlast.
Qed.

(** The statement at the window that played the three tracks in a row. *)
Lemma playback_follows_current_file_witness :
  reachable playedThree
  /\ playerSource_ playedThree = currentFilePath_ playedThree
  /\ List.last (playHistory_ playedThree) [] = currentFilePath_ playedThree.
Proof.
  split; [exact playedThree_reachable|].
  destruct (playback_follows_current_file playedThree playedThree_reachable)
    as (H1 & H2 & _).
  split; [exact H1 | exact H2].
Defined.

(** ** The current row follows the track *)

Section CurrentRowFacts.

Lemma findRow_nth rows item n k :
  NoDup (map itemFilePath rows) ->
  nth_error rows n = Some item ->
  findRow rows (itemFilePath item) k = Some (k + Z.of_nat n).
Proof.
  revert n k. induction rows as [|row rows IH]; intros n k Hnd Hn.
  - destruct n; discriminate.
  - simpl in Hnd. apply NoDup_cons in Hnd as [Hrow Hnd]. simpl.
    destruct n as [|n]; simpl in Hn.
    + injection Hn as ->. rewrite decide_True by reflexivity.
      f_equal. lia.
    + rewrite decide_False.
      * rewrite (IH n (k + 1) Hnd Hn). f_equal. lia.
      * intros E. apply Hrow. rewrite E. apply list_elem_of_In, in_map.
        eapply nth_error_In, Hn.
Qed.

Lemma NoDup_map_filter {A B} (f : A -> B) (p : A -> bool) (l : list A) :
  NoDup (map f l) -> NoDup (map f (List.filter p l)).
Proof.
  induction l as [|x l IH]; simpl; [intros; constructor|].
  intros H. apply NoDup_cons in H as [Hx H].
  destruct (p x); simpl; [|apply IH, H].
  apply NoDup_cons. split; [|apply IH, H].
  intros Hin. apply Hx. apply list_elem_of_In in Hin. apply list_elem_of_In.
  apply in_map_iff in Hin as (y & <- & Hy). apply in_map.
  apply filter_In in Hy. apply Hy.
Qed.

Lemma proxyRows_NoDup w :
  catalogueInvariant w -> NoDup (map itemFilePath (proxyRows w)).
Proof.
  intros [Hnd _]. unfold proxyRows.
  rewrite (Permutation_map itemFilePath (sortRows_Permutation _)).
  apply NoDup_map_filter, Hnd.
Qed.

Lemma proxyRows_frame w w' :
  model_ w' = model_ w -> tokens_ w' = tokens_ w -> proxyRows w' = proxyRows w.
Proof. unfold proxyRows. intros -> ->. reflexivity. Qed.

Lemma playIndex_current row w :
  reachable w -> 0 <= row < rowCount w ->
  exists item,
    nth_error (proxyRows w) (Z.to_nat row) = Some item
    /\ playIndex row w = playTrack (itemFilePath item) true w
    /\ currentIndex_ (playIndex row w) = row
    /\ currentFilePath_ (playIndex row w) = itemFilePath item
    /\ playerState_ (playIndex row w) = PlayingState
    /\ shuffleEnabled_ (playIndex row w) = shuffleEnabled_ w
    /\ repeatMode_ (playIndex row w) = repeatMode_ w
    /\ proxyRows (playIndex row w) = proxyRows w.
Proof.
  intros Hw Hrow. destruct (itemAt_valid w row Hrow) as (item & Hat & Hnth & Hin).
  exists item. split; [exact Hnth|].
  assert (Hplay : playIndex row w = playTrack (itemFilePath item) true w)
    by (unfold playIndex; rewrite Hat; reflexivity).
  split; [exact Hplay|]. rewrite Hplay.
  assert (Hp : itemFilePath item <> []).
  { pose proof (reachable_pathsInvariant w Hw) as Hpaths.
    unfold pathsInvariant in Hpaths. rewrite Forall_forall in Hpaths.
    apply Hpaths, list_elem_of_In, (proxyRows_model _ _ Hin). }
  destruct (playTrack_fields (itemFilePath item) true w Hp)
    as (_ & H2 & H3 & H4 & H5 & H6).
  rewrite H2, H3, H4, H5, H6.
  rewrite (findRow_nth _ _ _ 0
             (proxyRows_NoDup w (reachable_catalogueInvariant w Hw)) Hnth).
  repeat split; [lia|].
  destruct (playTrack_catalogue (itemFilePath item) true w) as (Hm & _ & Ht).
  apply proxyRows_frame; assumption.
Qed.

End CurrentRowFacts.

(** X9.  Playing a row of the view makes it the current row: in a reachable
    state [playIndex] on a valid row plays the file of that row and leaves
    the view's current index on it, without changing the rows shown. *)
Theorem playIndex_makes_row_current :
  forall row w,
    reachable w -> 0 <= row < rowCount w ->
    exists item,
      nth_error (proxyRows w) (Z.to_nat row) = Some item
      /\ currentIndex_ (playIndex row w) = row
      /\ currentFilePath_ (playIndex row w) = itemFilePath item
      /\ playerState_ (playIndex row w) = PlayingState
      /\ proxyRows (playIndex row w) = proxyRows w.
Proof.
  intros row w Hw Hrow.
  destruct (playIndex_current row w Hw Hrow)
    as (item & H1 & _ & H3 & H4 & H5 & _ & _ & H8).
  exists item. repeat split; assumption.
Qed.

Lemma threeTracks_reachable : reachable threeTracks.
Proof. apply reachable_start. Qed.

(** The statement at the second of the three tracks. *)
Lemma playIndex_makes_row_current_witness :
  exists item,
    nth_error (proxyRows threeTracks) (Z.to_nat 1) = Some item
    /\ currentIndex_ (playIndex 1 threeTracks) = 1
    /\ currentFilePath_ (playIndex 1 threeTracks) = itemFilePath item
    /\ playerState_ (playIndex 1 threeTracks) = PlayingState
    /\ proxyRows (playIndex 1 threeTracks) = proxyRows threeTracks.
Proof.
  apply (playIndex_makes_row_current 1 threeTracks threeTracks_reachable).
  vm_compute. split; [discriminate | reflexivity].
Defined.

(** ** Walking the view with repeat All *)

Lemma playNext_step generated w :
  reachable w -> shuffleEnabled_ w = false -> repeatMode_ w = 1 ->
  0 <= currentIndex_ w < rowCount w ->
  reachable (playNext generated w)
  /\ shuffleEnabled_ (playNext generated w) = false
  /\ repeatMode_ (playNext generated w) = 1
  /\ rowCount (playNext generated w) = rowCount w
  /\ currentIndex_ (playNext generated w) = (currentIndex_ w + 1) mod rowCount w.
Proof.
  intros Hw Hs Hr Hc.
  split; [apply (reachable_event (NextClicked generated) w Hw)|].
  assert (Hn : nextRow generated w = (currentIndex_ w + 1) mod rowCount w).
  { rewrite (nextRow_sequential _ _ Hs), Hr, Z.geb_leb.
    destruct (Z.leb_spec (rowCount w) (currentIndex_ w + 1)) as [Hlast | Hmid].
    - replace (currentIndex_ w + 1) with (rowCount w) by lia.
      symmetry. apply Z_mod_same_full.
    - symmetry. apply Z.mod_small. lia. }
  assert (Hb : 0 <= nextRow generated w < rowCount w)
    by (rewrite Hn; apply Z.mod_pos_bound; lia).
  assert (Hp : playNext generated w = playIndex (nextRow generated w) w).
  { rewrite playNext_unfold. destruct (Z.eqb_spec (rowCount w) 0); [lia|].
    destruct (Z.eqb_spec (nextRow generated w) (-1)); [lia | reflexivity]. }
  rewrite Hp.
  destruct (playIndex_current _ w Hw Hb)
    as (item & _ & _ & H3 & _ & _ & H6 & H7 & H8).
  unfold rowCount at 1. rewrite H3, H6, H7, H8, Hs, Hr, <- Hn. repeat split.
Qed.

(** X10.  With shuffle off and repeat All, the next button walks the view in
    order and starts again at the top: from a valid current row, [n]
    presses lead to the row [n] places further, counted round the view. *)
Theorem playNext_walks_round :
  forall n generated w,
    reachable w -> shuffleEnabled_ w = false -> repeatMode_ w = 1 ->
    0 <= currentIndex_ w < rowCount w ->
    currentIndex_ (Nat.iter n (playNext generated) w)
    = (currentIndex_ w + Z.of_nat n) mod rowCount w
    /\ rowCount (Nat.iter n (playNext generated) w) = rowCount w.
Proof.
  intros n generated w Hw Hs Hr Hc.
  assert (H : reachable (Nat.iter n (playNext generated) w)
              /\ shuffleEnabled_ (Nat.iter n (playNext generated) w) = false
              /\ repeatMode_ (Nat.iter n (playNext generated) w) = 1
              /\ rowCount (Nat.iter n (playNext generated) w) = rowCount w
              /\ currentIndex_ (Nat.iter n (playNext generated) w)
                 = (currentIndex_ w + Z.of_nat n) mod rowCount w).
  { induction n as [|n IH].
    - simpl. repeat split; try assumption.
      rewrite Z.add_0_r. symmetry. apply Z.mod_small, Hc.
    - destruct IH as (IH1 & IH2 & IH3 & IH4 & IH5).
      change (Nat.iter (S n) (playNext generated) w)
        with (playNext generated (Nat.iter n (playNext generated) w)).
      destruct (playNext_step generated _ IH1 IH2 IH3) as (S1 & S2 & S3 & S4 & S5).
      + rewrite IH4, IH5. apply Z.mod_pos_bound. lia.
      + repeat split; try assumption; [congruence|].
        rewrite S5, IH4, IH5, Z.add_mod_idemp_l by lia.
        f_equal. lia. }
  split; apply H.
Qed.

(** The statement for three presses from the first of three rows. *)
Lemma playNext_walks_round_witness :
  currentIndex_
    (Nat.iter 3 (playNext 0) (handle RepeatClicked (playIndex 0 threeTracks)))
  = (0 + Z.of_nat 3) mod 3.
Proof.
  apply (playNext_walks_round 3 0 (handle RepeatClicked (playIndex 0 threeTracks))).
  - apply reachable_event.
    apply (reachable_event DoubleClicked (handle (CurrentChanged 0) threeTracks)).
    apply reachable_event, threeTracks_reachable.
  - reflexivity.
  - reflexivity.
  - vm_compute. split; [discriminate | reflexivity].
Defined.

(** ** Previous after next *)

(** X11.  The previous button undoes the next button: when [playNext] moves
    from a playing track to a different one, [playPrevious] comes back to
    the first track and the history is what it was. *)
Theorem playPrevious_undoes_playNext :
  forall generated w,
    reachable w -> currentFilePath_ w <> [] ->
    currentFilePath_ (playNext generated w) <> currentFilePath_ w ->
    playHistory_ (playPrevious (playNext generated w)) = playHistory_ w
    /\ currentFilePath_ (playPrevious (playNext generated w)) = currentFilePath_ w
    /\ playerSource_ (playPrevious (playNext generated w)) = currentFilePath_ w
    /\ playerState_ (playPrevious (playNext generated w)) = PlayingState.
Proof.
  intros generated w Hw Hcur Hmoved.
  destruct (reachable_playbackInvariant w Hw) as (_ & Hlast & _).
  assert (Hplay : exists q, playNext generated w = playTrack q true w /\ q <> []).
  { rewrite playNext_unfold in *.
    destruct (rowCount w =? 0); [contradiction|].
    destruct (_ =? -1); [contradiction|].
    unfold playIndex in *. destruct (itemAt w _) as [item|]; [|contradiction].
    exists (itemFilePath item). split; [reflexivity|].
    intros E. rewrite E in Hmoved. contradiction. }
  destruct Hplay as (q & Hplay & Hq). rewrite Hplay in *.
  destruct (playTrack_fields q true w Hq) as (_ & Hc & _). rewrite Hc in Hmoved.
  revert Hlast Hcur Hmoved.
  generalize (eq_refl (playHistory_ w)).
  generalize (playHistory_ w) at 2 3. intros history Eh Hlast Hcur Hmoved.
  destruct history as [|x front _] using rev_ind.
  - simpl in Hlast. congruence.
  - rewrite last_last in Hlast. subst x.
    assert (Hh : playHistory_ (playTrack q true w)
                 = front ++ [currentFilePath_ w; q]).
    { rewrite playTrack_history, Eh. destruct q; [contradiction|].
      cbn [isEmpty andb]. rewrite last_last.
      rewrite bool_decide_eq_false_2 by (intros E; apply Hmoved; symmetry; exact E).
      rewrite orb_true_r, <- app_assoc. reflexivity. }
    destruct (playPrevious_history _ front (currentFilePath_ w) q Hh Hcur)
      as (H1 & H2 & H3 & H4).
    rewrite H1, H2, H3, H4, Eh. repeat split.
Qed.

(** The statement at the second of three tracks, reached with next. *)
Lemma playPrevious_undoes_playNext_witness :
  currentFilePath_
    (playPrevious (playNext 0 (handle DoubleClicked (handle (CurrentChanged 0) threeTracks))))
  = currentFilePath_ (handle DoubleClicked (handle (CurrentChanged 0) threeTracks)).
Proof.
  apply (playPrevious_undoes_playNext 0
           (handle DoubleClicked (handle (CurrentChanged 0) threeTracks))).
  - repeat apply reachable_event. apply threeTracks_reachable.
  - discriminate.
  - vm_compute. discriminate.
Defined.

(** ** Shuffle and repeat *)

Section SettingFacts.

Lemma playTrack_settings filePath recordHistory w :
  shuffleEnabled_ (playTrack filePath recordHistory w) = shuffleEnabled_ w
  /\ repeatMode_ (playTrack filePath recordHistory w) = repeatMode_ w.
Proof. unfold playTrack. destruct (isEmpty filePath); split; reflexivity. Qed.

Lemma playIndex_settings row w :
  shuffleEnabled_ (playIndex row w) = shuffleEnabled_ w
  /\ repeatMode_ (playIndex row w) = repeatMode_ w.
Proof.
  unfold playIndex. destruct (itemAt w row);
    [apply playTrack_settings | split; reflexivity].
Qed.

Lemma playNext_settings generated w :
  shuffleEnabled_ (playNext generated w) = shuffleEnabled_ w
  /\ repeatMode_ (playNext generated w) = repeatMode_ w.
Proof.
  rewrite playNext_unfold. destruct (rowCount w =? 0); [split; reflexivity|].
  destruct (_ =? -1); [split; reflexivity | apply playIndex_settings].
Qed.

Lemma playPrevious_settings w :
  shuffleEnabled_ (playPrevious w) = shuffleEnabled_ w
  /\ repeatMode_ (playPrevious w) = repeatMode_ w.
Proof.
  unfold playPrevious. destruct (2 <=? length (playHistory_ w))%nat.
  - cbv zeta. set (w' := setPlayHistory _ w).
    destruct (playTrack_settings (List.last (playHistory_ w') []) false w')
      as [-> ->].
    split; reflexivity.
  - destruct (negb _); [apply playIndex_settings | split; reflexivity].
Qed.

Lemma playPause_settings w :
  shuffleEnabled_ (playPause w) = shuffleEnabled_ w
  /\ repeatMode_ (playPause w) = repeatMode_ w.
Proof.
  unfold playPause, playSelected.
  destruct (playerState_ w); try (split; reflexivity);
    (destruct (negb _); [split; reflexivity|]);
    (destruct (isValid _ _); [apply playIndex_settings|]);
    (destruct (rowCount w >? 0); [apply playIndex_settings | split; reflexivity]).
Qed.

Lemma handleMediaStatus_settings status generated w :
  shuffleEnabled_ (handleMediaStatus status generated w) = shuffleEnabled_ w
  /\ repeatMode_ (handleMediaStatus status generated w) = repeatMode_ w.
Proof.
  unfold handleMediaStatus. destruct status; try (split; reflexivity).
  destruct (repeatMode_ w =? 2); [apply playTrack_settings | apply playNext_settings].
Qed.

Lemma addFolder_settings dir entries w :
  shuffleEnabled_ (addFolder dir entries w) = shuffleEnabled_ w
  /\ repeatMode_ (addFolder dir entries w) = repeatMode_ w.
Proof.
  unfold addFolder. destruct (isEmpty dir); [split; reflexivity|].
  unfold scanFolder. generalize (QDirIterator.listAll kFilters dir entries).
  intros paths. revert w. induction paths as [|p paths IH]; intros w;
    [split; reflexivity|].
  simpl. destruct (IH (addTrack p w)) as [-> ->].
  unfold addTrack. destruct (decide _); split; reflexivity.
Qed.

(** Only the two buttons change the modes. *)
Lemma handle_settings e w :
  shuffleEnabled_ (handle e w)
  = match e with
    | ShuffleClicked => negb (shuffleEnabled_ w)
    | _ => shuffleEnabled_ w
    end
  /\ repeatMode_ (handle e w)
     = match e with
       | RepeatClicked => Z.rem (repeatMode_ w + 1) 3
       | _ => repeatMode_ w
       end.
Proof.
  destruct e; simpl; try (split; reflexivity).
  - apply addFolder_settings.
  - unfold playSelected. apply playIndex_settings.
  - apply playPause_settings.
  - apply playNext_settings.
  - apply playPrevious_settings.
  - apply handleMediaStatus_settings.
Qed.

Lemma reachable_repeatMode w : reachable w -> 0 <= repeatMode_ w <= 2.
Proof.
  induction 1 as [musicDir entries | e w _ IH].
  - destruct (addFolder_settings musicDir entries initialWindow) as [_ ->].
    simpl. lia.
  - destruct (handle_settings e w) as [_ ->].
    destruct e; try exact IH.
    assert (H : repeatMode_ w = 0 \/ repeatMode_ w = 1 \/ repeatMode_ w = 2) by lia.
    destruct H as [-> | [-> | ->]]; vm_compute; split; discriminate.
Qed.

End SettingFacts.

Lemma repeatButtonText_named mode :
  repeatButtonText mode <> initialRepeatButtonText.
Proof.
  unfold repeatButtonText.
  destruct (mode =? 0); [discriminate|]. destruct (mode =? 1); discriminate.
Qed.

(** X12.  The repeat mode is always 0 (Off), 1 (All) or 2 (One); only the
    repeat button changes it, from Off to All to One and back to Off, and
    only the shuffle button changes the shuffle flag.  A click writes the
    name of the new mode on the repeat button, so three clicks bring back
    the mode and every other field of the window, while the button shows the
    name of the mode and never again the "R" it starts with. *)
Theorem repeatMode_cycles :
  (forall w, reachable w -> 0 <= repeatMode_ w <= 2)
  /\ (forall e w,
        e <> RepeatClicked -> repeatMode_ (handle e w) = repeatMode_ w)
  /\ (forall e w,
        e <> ShuffleClicked -> shuffleEnabled_ (handle e w) = shuffleEnabled_ w)
  /\ (forall w text,
        reachable w ->
        snd (cycleRepeatButton (w, text))
        = (if repeatMode_ w =? 0 then QStringLiteral "All"
           else if repeatMode_ w =? 1 then QStringLiteral "One"
           else QStringLiteral "Off"))
  /\ (forall w text,
        reachable w ->
        cycleRepeatButton (cycleRepeatButton (cycleRepeatButton (w, text)))
        = (w, repeatButtonText (repeatMode_ w)))
  /\ (forall w text,
        snd (cycleRepeatButton (w, text)) <> initialRepeatButtonText).
Proof.
  split; [exact reachable_repeatMode|].
  split.
  { intros e w He. destruct (handle_settings e w) as [_ ->].
    destruct e; try reflexivity. contradiction. }
  split.
  { intros e w He. destruct (handle_settings e w) as [-> _].
    destruct e; try reflexivity. contradiction. }
  split.
  { intros w text Hw. pose proof (reachable_repeatMode w Hw) as H.
    assert (H' : repeatMode_ w = 0 \/ repeatMode_ w = 1 \/ repeatMode_ w = 2) by lia.
    unfold cycleRepeatButton. cbn [fst snd cycleRepeat repeatMode_].
    destruct H' as [-> | [-> | ->]]; reflexivity. }
  split.
  { intros w text Hw. pose proof (reachable_repeatMode w Hw) as H.
    assert (H' : repeatMode_ w = 0 \/ repeatMode_ w = 1 \/ repeatMode_ w = 2) by lia.
    destruct w as [m t ft tk ci ps pst sh rm cf ph]. cbn [repeatMode_] in H'.
    unfold cycleRepeatButton, cycleRepeat. cbn.
    destruct H' as [-> | [-> | ->]]; reflexivity. }
  intros w text. apply repeatButtonText_named.
Qed.

(** The statement at the window with three tracks, the button showing "R":
    after three clicks the window is the same and the button shows "Off". *)
Lemma repeatMode_cycles_witness :
  reachable threeTracks
  /\ cycleRepeatButton
       (cycleRepeatButton
          (cycleRepeatButton (threeTracks, initialRepeatButtonText)))
     = (threeTracks, QStringLiteral "Off").
Proof.
  split; [exact threeTracks_reachable|].
  apply (proj1 (proj2 (proj2 (proj2 (proj2 repeatMode_cycles))))
           threeTracks initialRepeatButtonText threeTracks_reachable).
Defined.

(** ** The empty view *)

(** X13.  With no row in the view every navigation is idle: next, a double
    click, playing any row, the end of the media outside repeat One,
    previous with fewer than two entries in the history, and play/pause with
    nothing loaded all leave the window as it is.  Previous with two entries
    or more still walks the history. *)
Theorem empty_view_is_idle :
  forall generated row w,
    rowCount w = 0 ->
    playNext generated w = w
    /\ playIndex row w = w
    /\ playSelected w = w
    /\ (repeatMode_ w <> 2 -> handleMediaStatus EndOfMedia generated w = w)
    /\ ((length (playHistory_ w) < 2)%nat -> playPrevious w = w)
    /\ (playerState_ w <> PlayingState -> playerSource_ w = [] ->
        playPause w = w)
    /\ ((2 <= length (playHistory_ w))%nat ->
        playHistory_ (playPrevious w) = removelast (playHistory_ w)).
Proof.
  intros generated row w Hrows.
  assert (Hidx : forall r, playIndex r w = w).
  { intros r. unfold playIndex. rewrite itemAt_invalid; [reflexivity | lia]. }
  assert (Hnext : playNext generated w = w).
  { unfold playNext. rewrite Hrows. reflexivity. }
  split; [exact Hnext|]. split; [apply Hidx|]. split; [apply Hidx|].
  split.
  { intros H. unfold handleMediaStatus. apply Z.eqb_neq in H. rewrite H.
    exact Hnext. }
  split.
  { intros Hlen. unfold playPrevious.
    replace (2 <=? length (playHistory_ w))%nat with false
      by (symmetry; apply Nat.leb_gt; lia).
    destruct (negb _); [apply Hidx | reflexivity]. }
  split.
  { intros Hs Hsrc. unfold playPause, playSelected. rewrite Hsrc, Hrows.
    cbn [isEmpty negb Z.gtb Z.compare].
    destruct (playerState_ w); try contradiction;
      destruct (isValid _ _); try reflexivity; apply Hidx. }
  intros Hlen. unfold playPrevious.
  replace (2 <=? length (playHistory_ w))%nat with true
    by (symmetry; apply Nat.leb_le; exact Hlen).
  cbv zeta. rewrite playTrack_silent. reflexivity.
Qed.

(** The statement at the window whose query hides the three tracks. *)
Lemma empty_view_is_idle_witness :
  rowCount allFilteredOut = 0
  /\ playNext 0 allFilteredOut = allFilteredOut
  /\ playSelected allFilteredOut = allFilteredOut.
Proof.
  split; [reflexivity|].
  destruct (empty_view_is_idle 0 0 allFilteredOut eq_refl) as (H1 & _ & H3 & _).
  split; [exact H1 | exact H3].
Defined.

(** ** Play, pause and stop with a loaded track *)

Lemma setPlayerState_same w : setPlayerState (playerState_ w) w = w.
Proof. destruct w. reflexivity. Qed.

(** X14.  With a track loaded, play/pause only switches the player between
    playing and paused: it pauses a playing player and starts a paused or
    stopped one, so two presses on a playing player give the window back and
    play after stop resumes the same track.  Neither play/pause nor stop
    touches the current file, the history, the current row or the
    catalogue. *)
Theorem playPause_with_loaded_track :
  forall w,
    playerSource_ w <> [] ->
    (playerState_ w = PlayingState ->
     playPause w = setPlayerState PausedState w /\ playPause (playPause w) = w)
    /\ (playerState_ w <> PlayingState ->
        playPause w = setPlayerState PlayingState w)
    /\ playPause (stop w) = setPlayerState PlayingState w
    /\ currentFilePath_ (playPause w) = currentFilePath_ w
    /\ playHistory_ (playPause w) = playHistory_ w
    /\ currentIndex_ (playPause w) = currentIndex_ w
    /\ model_ (playPause w) = model_ w
    /\ playerSource_ (playPause w) = playerSource_ w.
Proof.
  intros w Hsrc.
  assert (Hpaused : playerState_ w <> PlayingState ->
                    playPause w = setPlayerState PlayingState w).
  { intros Hs. unfold playPause.
    destruct (playerState_ w); try contradiction;
      destruct (playerSource_ w); try contradiction; reflexivity. }
  assert (Hplaying : playerState_ w = PlayingState ->
                     playPause w = setPlayerState PausedState w).
  { intros Hs. unfold playPause. rewrite Hs. reflexivity. }
  split.
  { intros Hs. split; [apply Hplaying, Hs|]. rewrite (Hplaying Hs).
    unfold playPause. cbn [setPlayerState playerState_ playerSource_].
    destruct (playerSource_ w); [contradiction|]. cbn [isEmpty negb].
    rewrite <- Hs. destruct w. reflexivity. }
  split; [exact Hpaused|].
  split.
  { unfold stop, playPause. cbn [setPlayerState playerState_ playerSource_].
    destruct (playerSource_ w); [contradiction | reflexivity]. }
  destruct (playerState_ w) eqn:Es.
  - rewrite Hpaused by congruence. repeat split.
  - rewrite Hplaying by congruence. repeat split.
  - rewrite Hpaused by congruence. repeat split.
Qed.

(** The statement at the window that played the three tracks in a row. *)
Lemma playPause_with_loaded_track_witness :
  playerState_ (playPause playedThree) = PausedState
  /\ playPause (playPause playedThree) = playedThree.
Proof.
  destruct (playPause_with_loaded_track playedThree) as (H & _).
  - vm_compute. discriminate.
  - assert (Hs : playerState_ playedThree = PlayingState) by (vm_compute; reflexivity).
    destruct (H Hs) as [H1 H2]. split; [rewrite H1; reflexivity | exact H2].
Defined.

(** ** The time label *)

Section TimeFacts.

Lemma decimal_nonneg n :
  0 <= n ->
  decimal n
  = list_ascii_of_string
      (DecimalString.NilEmpty.string_of_uint (N.to_uint (Z.to_N n))).
Proof.
  intros H. unfold decimal, Z.to_int.
  destruct n as [|p|p]; [reflexivity | | lia].
  assert (Hp : Pos.to_uint p <> Decimal.Nil).
  { intros E. pose proof (DecimalPos.Unsigned.of_to p) as R.
    rewrite E in R. discriminate. }
  simpl. destruct (Pos.to_uint p); [contradiction | reflexivity ..].
Qed.

Lemma parseDecimal_decimal n : 0 <= n -> parseDecimal (decimal n) = Some n.
Proof.
  intros H. rewrite (decimal_nonneg n H). unfold parseDecimal.
  rewrite string_of_list_ascii_of_string, DecimalString.NilEmpty.usu. simpl.
  f_equal. unfold Z.of_uint.
  change (Pos.of_uint (N.to_uint (Z.to_N n))) with (N.of_uint (N.to_uint (Z.to_N n))).
  rewrite DecimalN.Unsigned.of_to. apply Z2N.id, H.
Qed.

Lemma parseDecimal_zero s :
  parseDecimal ("0"%char :: s) = parseDecimal s.
Proof.
  unfold parseDecimal. simpl.
  destruct (DecimalString.NilEmpty.uint_of_string (string_of_list_ascii s));
    reflexivity.
Qed.

Lemma parseDecimal_argWidth2 n : 0 <= n -> parseDecimal (argWidth2 n) = Some n.
Proof.
  intros H. unfold argWidth2. cbv zeta.
  destruct (length (decimal n) <? 2)%nat.
  - rewrite parseDecimal_zero. apply parseDecimal_decimal, H.
  - apply parseDecimal_decimal, H.
Qed.

(** A text that stands for a number holds digits only, so no colon. *)
Lemma parseDecimal_colon s n : parseDecimal s = Some n -> ~ In ":"%char s.
Proof.
  unfold parseDecimal. revert n. induction s as [|c s IH]; intros n H; [intros []|].
  simpl in H.
  destruct (DecimalString.NilEmpty.uint_of_string (string_of_list_ascii s))
    as [d|] eqn:E; [|destruct c as [[] [] [] [] [] [] [] []]; discriminate].
  intros [-> | Hin].
  - discriminate.
  - apply (IH (Z.of_uint d)); [reflexivity | exact Hin].
Qed.

Lemma argWidth2_two_characters n :
  0 <= n < 100 -> length (argWidth2 n) = 2%nat.
Proof.
  intros H.
  assert (Hall : forallb (fun k => (length (argWidth2 (Z.of_nat k)) =? 2)%nat)
                         (seq 0 100) = true) by (vm_compute; reflexivity).
  rewrite forallb_forall in Hall.
  specialize (Hall (Z.to_nat n)). rewrite Z2Nat.id in Hall by lia.
  apply Nat.eqb_eq, Hall, in_seq. lia.
Qed.

Lemma formatTime_nonneg ms :
  0 <= ms ->
  formatTime ms
  = argWidth2 (ms / 1000 / 60) ++ ":"%char :: argWidth2 ((ms / 1000) mod 60).
Proof.
  intros H. unfold formatTime. cbv zeta.
  rewrite (Z.quot_div_nonneg ms 1000) by lia.
  assert (0 <= ms / 1000) by (apply Z.div_pos; lia).
  rewrite Z.quot_div_nonneg, Z.rem_mod_nonneg by lia. reflexivity.
Qed.

Lemma formatTime_seconds a b :
  0 <= a -> 0 <= b -> formatTime a = formatTime b -> a / 1000 = b / 1000.
Proof.
  intros Ha Hb E. rewrite !formatTime_nonneg in E by assumption.
  assert (Ha' : 0 <= a / 1000) by (apply Z.div_pos; lia).
  assert (Hb' : 0 <= b / 1000) by (apply Z.div_pos; lia).
  pose proof (Z.mod_pos_bound (a / 1000) 60 ltac:(lia)) as Hma.
  pose proof (Z.mod_pos_bound (b / 1000) 60 ltac:(lia)) as Hmb.
  assert (Hqa : 0 <= a / 1000 / 60) by (apply Z.div_pos; lia).
  assert (Hqb : 0 <= b / 1000 / 60) by (apply Z.div_pos; lia).
  pose proof (parseDecimal_argWidth2 _ Hqa) as Pqa.
  pose proof (parseDecimal_argWidth2 _ Hqb) as Pqb.
  pose proof (parseDecimal_argWidth2 _ (proj1 Hma)) as Pma.
  pose proof (parseDecimal_argWidth2 _ (proj1 Hmb)) as Pmb.
  apply (f_equal (split ":")) in E.
  rewrite !split_app in E.
  rewrite (split_plain _ _ (parseDecimal_colon _ _ Pqa)) in E.
  rewrite (split_plain _ _ (parseDecimal_colon _ _ Pqb)) in E.
  rewrite (split_plain _ _ (parseDecimal_colon _ _ Pma)) in E.
  rewrite (split_plain _ _ (parseDecimal_colon _ _ Pmb)) in E.
  injection E as Eq Em. rewrite Eq in Pqa. rewrite Em in Pma.
  rewrite Pqb in Pqa. rewrite Pmb in Pma.
  injection Pqa as Pqa. injection Pma as Pma.
  rewrite (Z.div_mod (a / 1000) 60), (Z.div_mod (b / 1000) 60) by lia.
  congruence.
Qed.

End TimeFacts.

(** X15.  For a time that is not negative [formatTime] writes the whole
    minutes, a colon and the seconds of the minute: the text before the
    colon stands for the minutes, the text after it has two digits and
    stands for the seconds, below 60; up to 100 minutes the text has five
    characters.  Two times get the same text exactly when they lie in the
    same second. *)
Theorem formatTime_minutes_and_seconds :
  forall ms,
    0 <= ms ->
    (exists minutes seconds,
        formatTime ms = minutes ++ ":"%char :: seconds
        /\ parseDecimal minutes = Some (ms / 1000 / 60)
        /\ parseDecimal seconds = Some ((ms / 1000) mod 60)
        /\ length seconds = 2%nat)
    /\ (ms < 6000000 -> length (formatTime ms) = 5%nat)
    /\ (forall ms', 0 <= ms' ->
          (formatTime ms = formatTime ms' <-> ms / 1000 = ms' / 1000)).
Proof.
  intros ms H.
  assert (Hs : 0 <= ms / 1000) by (apply Z.div_pos; lia).
  pose proof (Z.mod_pos_bound (ms / 1000) 60 ltac:(lia)) as Hm.
  assert (Hq : 0 <= ms / 1000 / 60) by (apply Z.div_pos; lia).
  split.
  { exists (argWidth2 (ms / 1000 / 60)), (argWidth2 ((ms / 1000) mod 60)).
    split; [apply formatTime_nonneg, H|].
    split; [apply parseDecimal_argWidth2, Hq|].
    split; [apply parseDecimal_argWidth2, Hm|].
    apply argWidth2_two_characters. lia. }
  split.
  { intros Hlt. rewrite formatTime_nonneg by exact H.
    rewrite length_app. cbn [length].
    rewrite !argWidth2_two_characters; [reflexivity | lia |].
    split; [exact Hq|]. apply Z.div_lt_upper_bound; [lia|].
    apply Z.div_lt_upper_bound; lia. }
  intros ms' H'. split.
  - apply formatTime_seconds; assumption.
  - intros E. rewrite !formatTime_nonneg by assumption. rewrite E. reflexivity.
Qed.

(** The statement at 12 minutes and 34.5 seconds. *)
Lemma formatTime_minutes_and_seconds_witness :
  length (formatTime 754500) = 5%nat
  /\ (formatTime 754500 = formatTime 754000 <-> 754500 / 1000 = 754000 / 1000).
Proof.
  destruct (formatTime_minutes_and_seconds 754500) as (_ & H2 & H3); [lia|].
  split; [apply H2; lia | apply H3; lia].
Defined.

(** ** The seek bar *)

Section SeekBarFacts.

Lemma toInt64_small z : - 2 ^ 63 <= z < 2 ^ 63 -> toInt64 z = z.
Proof. intros H. unfold toInt64. rewrite Z.mod_small; lia. Qed.

Lemma toInt_small z : - 2 ^ 31 <= z < 2 ^ 31 -> toInt z = z.
Proof. intros H. unfold toInt. rewrite Z.mod_small; lia. Qed.

(** The range of the seek bar is never set: it stays 0..99, the value stays
    within it, and the bar is enabled exactly when a duration is known. *)
Lemma seekBarReachable_range b :
  seekBarReachable b ->
  sliderMinimum (seekSlider_ b) = 0
  /\ sliderMaximum (seekSlider_ b) = 99
  /\ 0 <= sliderValue (seekSlider_ b) <= 99
  /\ sliderEnabled (seekSlider_ b) = (durationMs_ b >? 0).
Proof.
  induction 1 as [|position b _ (H1 & H2 & H3 & H4)
                  |duration b _ (H1 & H2 & H3 & H4)
                  |value b _ (H1 & H2 & H3 & H4)].
  - repeat split; try reflexivity; simpl; lia.
  - unfold updatePosition. cbn [seekSlider_ durationMs_].
    destruct (durationMs_ b >? 0); [|repeat split; try assumption; lia].
    unfold setValue. cbn [sliderMinimum sliderMaximum sliderValue sliderEnabled].
    rewrite H1, H2. repeat split; try assumption; lia.
  - unfold updateDuration, setEnabled.
    cbn [seekSlider_ durationMs_ sliderMinimum sliderMaximum sliderValue sliderEnabled].
    repeat split; try assumption; lia.
  - unfold moveSeekSlider, setValue.
    cbn [seekSlider_ durationMs_ sliderMinimum sliderMaximum sliderValue sliderEnabled].
    rewrite H1, H2. repeat split; try assumption; lia.
Qed.

Lemma updatePosition_value position b :
  seekBarReachable b -> 0 < durationMs_ b ->
  0 <= position -> position * 1000 < 2 ^ 63 ->
  position * 1000 / durationMs_ b < 2 ^ 31 ->
  sliderValue (seekSlider_ (updatePosition position b))
  = Z.min 99 (position * 1000 / durationMs_ b).
Proof.
  intros Hb Hd Hp Hmul Hint.
  destruct (seekBarReachable_range b Hb) as (H1 & H2 & _).
  unfold updatePosition, kSeekSliderRange. cbn [seekSlider_].
  destruct (Z.gtb_spec (durationMs_ b) 0); [|lia].
  unfold setValue. cbn [sliderValue]. rewrite H1, H2.
  rewrite toInt64_small by lia.
  rewrite Z.quot_div_nonneg by lia.
  assert (0 <= position * 1000 / durationMs_ b) by (apply Z.div_pos; lia).
  rewrite toInt_small by lia. lia.
Qed.

End SeekBarFacts.

(** X16.  The seek bar keeps the range 0..99 it is created with.  While a
    duration is known, [updatePosition] shows the thousandths of the track
    that have played, cut off at 99: the value never leaves 0..99, does not
    go down when the position goes up, and is 99 from 99 thousandths of the
    duration on. *)
Theorem updatePosition_seek_bar :
  forall position b,
    seekBarReachable b -> 0 < durationMs_ b ->
    0 <= position <= durationMs_ b -> durationMs_ b * 1000 < 2 ^ 63 ->
    sliderMaximum (seekSlider_ (updatePosition position b)) = 99
    /\ sliderValue (seekSlider_ (updatePosition position b))
       = Z.min 99 (position * 1000 / durationMs_ b)
    /\ 0 <= sliderValue (seekSlider_ (updatePosition position b)) <= 99
    /\ (99 * durationMs_ b <= position * 1000 ->
        sliderValue (seekSlider_ (updatePosition position b)) = 99)
    /\ (forall position',
          position <= position' <= durationMs_ b ->
          sliderValue (seekSlider_ (updatePosition position b))
          <= sliderValue (seekSlider_ (updatePosition position' b))).
Proof.
  intros position b Hb Hd Hp Hmul.
  assert (Hq : forall p, 0 <= p <= durationMs_ b ->
                         0 <= p * 1000 / durationMs_ b <= 1000).
  { intros p Hp'. split; [apply Z.div_pos; lia|].
    apply Z.div_le_upper_bound; nia. }
  assert (Hv : forall p, 0 <= p <= durationMs_ b ->
                         sliderValue (seekSlider_ (updatePosition p b))
                         = Z.min 99 (p * 1000 / durationMs_ b)).
  { intros p Hp'. pose proof (Hq p Hp').
    apply updatePosition_value; try assumption; try lia; nia. }
  split.
  { apply (seekBarReachable_range _ (seekBar_position position b Hb)). }
  split; [apply Hv, Hp|]. rewrite (Hv position Hp).
  pose proof (Hq position Hp).
  split; [lia|]. split.
  - intros H99.
    assert (99 <= position * 1000 / durationMs_ b)
      by (apply Z.div_le_lower_bound; lia).
    lia.
  - intros position' Hp'. rewrite (Hv position') by lia.
    assert (position * 1000 / durationMs_ b <= position' * 1000 / durationMs_ b)
      by (apply Z.div_le_mono; lia).
    lia.
Qed.

(** The statement for a track of 100 seconds, half played. *)
Lemma updatePosition_seek_bar_witness :
  sliderValue (seekSlider_ (updatePosition 50000 (updateDuration 100000 initialSeekBar)))
  = Z.min 99 (50000 * 1000 / 100000).
Proof.
  destruct (updatePosition_seek_bar 50000 (updateDuration 100000 initialSeekBar))
    as (_ & H & _).
  - apply seekBar_duration, seekBar_start.
  - reflexivity.
  - simpl. lia.
  - reflexivity.
  - exact H.
Defined.

(** X17.  [seek] does nothing while no duration is known.  Otherwise the
    value of the seek bar, which lies in 0..99, asks for that many
    thousandths of the duration: a position in the first tenth of the track.
    For a track of a second or more, the bar then shows the value that was
    set, or one less. *)
Theorem seek_from_seek_bar :
  forall b,
    seekBarReachable b ->
    (durationMs_ b <= 0 -> seek (sliderValue (seekSlider_ b)) b = None)
    /\ (0 < durationMs_ b -> durationMs_ b * 1000 < 2 ^ 63 ->
        exists position,
          seek (sliderValue (seekSlider_ b)) b = Some position
          /\ position = durationMs_ b * sliderValue (seekSlider_ b) / 1000
          /\ 0 <= position /\ 10 * position < durationMs_ b
          /\ (1000 <= durationMs_ b ->
              sliderValue (seekSlider_ b) - 1
              <= sliderValue (seekSlider_ (updatePosition position b))
              <= sliderValue (seekSlider_ b))).
Proof.
  intros b Hb. destruct (seekBarReachable_range b Hb) as (_ & _ & Hv & _).
  unfold seek, kSeekSliderRange. split.
  { intros H. destruct (Z.gtb_spec (durationMs_ b) 0); [lia | reflexivity]. }
  intros Hd Hmul. destruct (Z.gtb_spec (durationMs_ b) 0); [|lia].
  set (v := sliderValue (seekSlider_ b)) in *.
  rewrite toInt64_small by nia. rewrite Z.quot_div_nonneg by nia.
  exists (durationMs_ b * v / 1000).
  assert (H0 : 0 <= durationMs_ b * v / 1000) by (apply Z.div_pos; nia).
  assert (H1 : durationMs_ b * v / 1000 * 1000 <= durationMs_ b * v)
    by (pose proof (Z.mul_div_le (durationMs_ b * v) 1000 ltac:(lia)); lia).
  assert (H2 : durationMs_ b * v < (durationMs_ b * v / 1000 + 1) * 1000).
  { pose proof (Z.mod_pos_bound (durationMs_ b * v) 1000 ltac:(lia)).
    pose proof (Z.div_mod (durationMs_ b * v) 1000 ltac:(lia)). lia. }
  split; [reflexivity|]. split; [reflexivity|]. split; [exact H0|].
  split; [nia|].
  intros Hsec.
  rewrite updatePosition_value; try assumption; try nia.
  - assert (Hup : durationMs_ b * v / 1000 * 1000 / durationMs_ b <= v)
      by (apply Z.div_le_upper_bound; nia).
    assert (Hlow : v - 1 <= durationMs_ b * v / 1000 * 1000 / durationMs_ b)
      by (apply Z.div_le_lower_bound; nia).
    lia.
  - assert (durationMs_ b * v / 1000 * 1000 / durationMs_ b <= v)
      by (apply Z.div_le_upper_bound; nia).
    lia.
Qed.

(** The statement for a track of 100 seconds with the handle at its end. *)
Lemma seek_from_seek_bar_witness :
  seekBarReachable (moveSeekSlider 99 (updateDuration 100000 initialSeekBar))
  /\ seek 99 (moveSeekSlider 99 (updateDuration 100000 initialSeekBar)) = Some 9900.
Proof.
  assert (Hb : seekBarReachable
                 (moveSeekSlider 99 (updateDuration 100000 initialSeekBar)))
    by (apply seekBar_moved, seekBar_duration, seekBar_start).
  split; [exact Hb|].
  destruct (proj2 (seek_from_seek_bar _ Hb)) as (position & H1 & H2 & _).
  - reflexivity.
  - reflexivity.
  - rewrite H2 in H1. exact H1.
Defined.

(** ** The normaliser is idempotent and ignores case and separators *)

Lemma normalizeText_same_words text :
  wordsOf (normalizeText text)
  = wordsOf (map (fun c => separatorsToSpace (toLowerChar c)) text).
Proof. rewrite normalizeText_words. apply wordsOf_join, wordsOf_plain. Qed.

Lemma normalizeText_eq_words x y :
  wordsOf (map (fun c => separatorsToSpace (toLowerChar c)) x)
  = wordsOf (map (fun c => separatorsToSpace (toLowerChar c)) y)
  <-> normalizeText x = normalizeText y.
Proof.
  split.
  - intros E. rewrite !normalizeText_words, E. reflexivity.
  - intros E. rewrite <- !normalizeText_same_words, E. reflexivity.
Qed.

Lemma normalizeText_sameUpToCase x y :
  sameUpToCase x y -> normalizeText x = normalizeText y.
Proof.
  intros H. rewrite !normalizeText_words, (sameUpToCase_words _ _ H). reflexivity.
Qed.

(** C5.  [normalizeText] gives the words of the text, lower-cased and with
    ['_'] and ['-'] read as spaces, joined by single spaces: white space at
    the ends is dropped and every run of it between two words becomes one
    space.  It is idempotent; two texts have the same normal form exactly
    when they have the same words, so texts that differ in the case of
    their letters, in the separator written between the words, or in the
    amount of white space have the same normal form.  In particular
    "My-Song_Title" and "my song title" both give "my song title". *)
Theorem normalizeText_idempotent_insensitive :
  (forall x,
      normalizeText x
      = join [space]
          (wordsOf (map (fun c => separatorsToSpace (toLowerChar c)) x)))
  /\ (forall x, normalizeText (normalizeText x) = normalizeText x)
  /\ (forall x y,
        wordsOf (map (fun c => separatorsToSpace (toLowerChar c)) x)
        = wordsOf (map (fun c => separatorsToSpace (toLowerChar c)) y)
        <-> normalizeText x = normalizeText y)
  /\ (forall x y, sameUpToCase x y -> normalizeText x = normalizeText y)
  /\ (forall x, normalizeText (toLower x) = normalizeText x)
  /\ (forall x, normalizeText (replaceChar "_" space x) = normalizeText x)
  /\ (forall x, normalizeText (replaceChar "-" space x) = normalizeText x)
  /\ (forall x, Forall plainChar (normalizeText x)
                 /\ singleSpaced (normalizeText x) = true
                 /\ startsWithSpace (normalizeText x) = false)
  /\ normalizeText (QStringLiteral "My-Song_Title")
     = QStringLiteral "my song title"
  /\ normalizeText (QStringLiteral "my song title")
     = QStringLiteral "my song title"
  /\ normalizeText (QStringLiteral "My-Song_Title")
     = normalizeText (QStringLiteral "my song title").
Proof.
  split; [exact normalizeText_words|].
  split; [exact normalizeText_idem|].
  split; [exact normalizeText_eq_words|].
  split; [exact normalizeText_sameUpToCase|].
  split; [exact normalizeText_toLower|].
  split; [exact normalizeText_underscore|].
  split; [exact normalizeText_hyphen|].
  split; [exact normalizeText_shape|].
  repeat split.
Qed.

(** The statement for a title in capitals and in small letters. *)
Lemma normalizeText_idempotent_insensitive_witness :
  normalizeText (QStringLiteral "MY-SONG_TITLE")
  = normalizeText (QStringLiteral "my-song_title").
Proof.
  apply (proj1 (proj2 (proj2 (proj2 normalizeText_idempotent_insensitive)))).
  reflexivity.
Defined.

(** ** Every row of the catalogue has a search key *)

Section KeyFacts.

Lemma wordsOf_nonempty s c : In c s -> isSpace c = false -> wordsOf s <> [].
Proof.
  intros Hin Hc. induction s as [|d r IH]; [destruct Hin|].
  destruct (isSpace d) eqn:Ed.
  - rewrite (wordsOf_space _ _ Ed). apply IH.
    destruct Hin as [-> | Hin]; [congruence | exact Hin].
  - destruct (wordsOf_cons_word d r Ed) as (word & words & ->). discriminate.
Qed.

Lemma normalizeText_nonempty text c :
  In c text -> isSpace (separatorsToSpace (toLowerChar c)) = false ->
  normalizeText text <> [].
Proof.
  intros Hin Hc E.
  pose proof (normalizeText_same_words text) as H. rewrite E in H.
  symmetry in H. revert H.
  apply (wordsOf_nonempty _ (separatorsToSpace (toLowerChar c))); [|exact Hc].
  apply (in_map (fun c => separatorsToSpace (toLowerChar c))), Hin.
Qed.

(** A text with the separator splits at its last occurrence. *)
Lemma last_separator (sep : ascii) s :
  In sep s -> exists front back, s = front ++ sep :: back /\ ~ In sep back.
Proof.
  induction s as [|c r IH]; [intros []|].
  intros Hin. destruct (in_dec ascii_dec sep r) as [Hr | Hr].
  - destruct (IH Hr) as (front & back & -> & Hback).
    exists (c :: front), back. split; [reflexivity | exact Hback].
  - destruct Hin as [-> | Hin]; [|contradiction].
    exists [], r. split; [reflexivity | exact Hr].
Qed.

Lemma fileName_dot dir front tail :
  ~ In "/"%char tail ->
  In "."%char
     (QFileInfo.fileName (QDirIterator.filePathIn dir (front ++ "."%char :: tail))).
Proof.
  intros Htail.
  destruct (in_dec ascii_dec "/"%char front) as [Hfront | Hfront].
  - destruct (last_separator _ _ Hfront) as (f1 & f2 & -> & Hf2).
    unfold QDirIterator.filePathIn.
    replace (dir ++ "/"%char :: (f1 ++ "/"%char :: f2) ++ "."%char :: tail)
      with ((dir ++ "/"%char :: f1) ++ "/"%char :: (f2 ++ "."%char :: tail))
      by (rewrite <- !app_assoc; reflexivity).
    unfold QFileInfo.fileName. rewrite split_last, last_last.
    + apply in_or_app. right. left. reflexivity.
    + intros H. apply in_app_or in H as [H | [H | H]];
        [exact (Hf2 H) | discriminate | exact (Htail H)].
  - rewrite fileName_filePathIn.
    + apply in_or_app. right. left. reflexivity.
    + intros H. apply in_app_or in H as [H | [H | H]];
        [exact (Hfront H) | discriminate | exact (Htail H)].
Qed.

Lemma toLowerChar_slash c : toLowerChar c = "/"%char -> c = "/"%char.
Proof. destruct c as [[] [] [] [] [] [] [] []]; vm_compute; congruence. Qed.

Lemma allowedExtensions_slash_free :
  Forall (fun ext => ~ In "/"%char ext) allowedExtensions.
Proof.
  unfold allowedExtensions.
  repeat (constructor; [simpl; intuition discriminate|]). constructor.
Qed.

Lemma hasAllowedExtension_dot name :
  hasAllowedExtension name = true ->
  exists front tail, name = front ++ "."%char :: tail /\ ~ In "/"%char tail.
Proof.
  unfold hasAllowedExtension. intros H.
  apply existsb_exists in H as (ext & Hext & H).
  apply bool_decide_eq_true in H.
  assert (Hne : ext <> []).
  { pose proof allowedExtensions_plain as P.
    induction P as [|e l (_ & _ & He & _) _ IH]; [destruct Hext|].
    destruct Hext as [<- | Hext]; [exact He | exact (IH Hext)]. }
  assert (Hslash : ~ In "/"%char ext).
  { pose proof allowedExtensions_slash_free as P.
    induction P as [|e l He _ IH]; [destruct Hext|].
    destruct Hext as [<- | Hext]; [exact He | exact (IH Hext)]. }
  destruct (name_of_suffix name) as (front & E & _).
  - intros E. rewrite E in H. simpl in H. congruence.
  - exists front, (suffix name). split; [exact E|].
    intros Hin. apply Hslash. rewrite <- H. unfold toLower.
    apply in_map_iff. exists "/"%char. split; [reflexivity | exact Hin].
Qed.

Lemma listEntry_fileName dir e :
  Forall (fun p => In "."%char (QFileInfo.fileName p))
         (QDirIterator.listEntry kFilters dir e).
Proof.
  revert dir. induction e as [name | name entries IH] using FsEntry_nested_ind;
    intros dir.
  - cbn [QDirIterator.listEntry]. rewrite kFilters_hasAllowedExtension.
    destruct (negb (QDirIterator.isHidden name)); [|constructor].
    destruct (hasAllowedExtension name) eqn:E; [|constructor].
    cbn [andb]. constructor; [|constructor].
    destruct (hasAllowedExtension_dot name E) as (front & tail & -> & Htail).
    apply fileName_dot, Htail.
  - cbn [QDirIterator.listEntry]. destruct (QDirIterator.isHidden name);
      [constructor|].
    generalize (QDirIterator.filePathIn dir name). intros dir'.
    induction IH as [|e entries He _ IHentries]; [constructor|].
    simpl. apply Forall_app. split; [apply He | exact IHentries].
Qed.

Lemma listAll_fileName rootPath entries :
  Forall (fun p => In "."%char (QFileInfo.fileName p))
         (QDirIterator.listAll kFilters rootPath entries).
Proof.
  unfold QDirIterator.listAll.
  induction entries as [|e entries IH]; [constructor|].
  simpl. apply Forall_app. split; [apply listEntry_fileName | exact IH].
Qed.

Lemma trackItem_key_nonempty filePath :
  In "."%char (QFileInfo.fileName filePath) ->
  itemSearchKey (trackItem filePath) <> [].
Proof.
  intros H. unfold trackItem. cbn [itemSearchKey].
  apply (normalizeText_nonempty _ "."%char); [|reflexivity].
  apply in_or_app. right. apply in_or_app. right.
  apply in_or_app. left. exact H.
Qed.

Lemma addTrack_keysInvariant filePath w :
  In "."%char (QFileInfo.fileName filePath) ->
  keysInvariant w -> keysInvariant (addTrack filePath w).
Proof.
  intros Hp H. unfold addTrack. destruct (decide _); [exact H|].
  unfold keysInvariant. simpl. apply Forall_app. split; [exact H|].
  constructor; [apply trackItem_key_nonempty, Hp | constructor].
Qed.

Lemma addFolder_keysInvariant dir entries w :
  keysInvariant w -> keysInvariant (addFolder dir entries w).
Proof.
  intros H. unfold addFolder. destruct (isEmpty dir); [exact H|].
  unfold scanFolder. pose proof (listAll_fileName dir entries) as Hpaths.
  revert w H. induction Hpaths as [|p paths Hp _ IH]; intros w H; [exact H|].
  simpl. apply IH, addTrack_keysInvariant; assumption.
Qed.

Lemma reachable_keysInvariant w : reachable w -> keysInvariant w.
Proof.
  induction 1 as [musicDir entries | e w _ IH].
  - apply addFolder_keysInvariant. constructor.
  - pose proof (handle_catalogue e w) as F.
    destruct e; try (unfold keysInvariant; rewrite (proj1 F); exact IH).
    apply addFolder_keysInvariant, IH.
Qed.

Lemma keysInvariant_row w item :
  keysInvariant w -> In item (model_ w) -> itemSearchKey item <> [].
Proof.
  unfold keysInvariant. intros H Hin. rewrite Forall_forall in H.
  apply H, list_elem_of_In, Hin.
Qed.

Lemma filterAcceptsRow_keyed tokens item :
  itemSearchKey item <> [] ->
  filterAcceptsRow tokens item = true
  <-> tokens = []
      \/ forall token, In token tokens -> isSubstring token (itemSearchKey item).
Proof.
  intros Hkey. rewrite filterAcceptsRow_spec. split.
  - intros [H | [H | H]]; [left; exact H | contradiction | right; exact H].
  - intros [H | H]; [left; exact H | right; right; exact H].
Qed.

End KeyFacts.

(** ** The search filter accepts the rows that hold every token *)

(** C1.  After [setFilterText text] the tokens are the non-empty parts of
    [normalizeText text] between its spaces.  Every row of the catalogue of
    a reachable window has a non-empty search key, and such a row is
    accepted exactly when there is no token or every token occurs in its
    key; so a row whose key lacks some token is rejected.  For the query
    "song title" the key "my song title.mp3" is accepted and the key
    "my other track.mp3" is rejected; the empty query accepts every row. *)
Theorem setFilterText_filterAcceptsRow :
  (forall text w,
      tokens_ (setFilterText text w)
      = splitSkipEmptyParts space (normalizeText text)
      /\ exists parts,
           join [space] parts = normalizeText text
           /\ Forall (fun part => ~ In space part) parts
           /\ tokens_ (setFilterText text w)
              = List.filter (fun part => negb (isEmpty part)) parts)
  /\ (forall w item,
        reachable w -> In item (model_ w) -> itemSearchKey item <> [])
  /\ (forall text w item,
        reachable w -> In item (model_ w) ->
        (filterAcceptsRow (tokens_ (setFilterText text w)) item = true
         <-> tokens_ (setFilterText text w) = []
             \/ forall token, In token (tokens_ (setFilterText text w)) ->
                  isSubstring token (itemSearchKey item)))
  /\ (forall text w item token,
        reachable w -> In item (model_ w) ->
        In token (tokens_ (setFilterText text w)) ->
        ~ isSubstring token (itemSearchKey item) ->
        filterAcceptsRow (tokens_ (setFilterText text w)) item = false)
  /\ (forall tokens item,
        itemSearchKey item <> [] ->
        (filterAcceptsRow tokens item = true
         <-> tokens = []
             \/ forall token, In token tokens ->
                  isSubstring token (itemSearchKey item)))
  /\ tokens_ songTitleQuery = [QStringLiteral "song"; QStringLiteral "title"]
  /\ filterAcceptsRow (tokens_ songTitleQuery)
       (rowWithKey (QStringLiteral "my song title.mp3")) = true
  /\ filterAcceptsRow (tokens_ songTitleQuery)
       (rowWithKey (QStringLiteral "my other track.mp3")) = false
  /\ (forall w item, filterAcceptsRow (tokens_ (setFilterText [] w)) item = true).
Proof.
  split.
  { intros text w. split; [reflexivity|].
    exists (split space (normalizeText text)).
    split; [apply join_split|]. split; [apply split_free | reflexivity]. }
  split.
  { intros w item Hw Hin.
    apply (keysInvariant_row w item (reachable_keysInvariant w Hw) Hin). }
  split.
  { intros text w item Hw Hin. apply filterAcceptsRow_keyed.
    apply (keysInvariant_row w item (reachable_keysInvariant w Hw) Hin). }
  split.
  { intros text w item token Hw Hin Htoken Hno.
    apply not_true_is_false. intros Hacc.
    apply filterAcceptsRow_keyed in Hacc as [H | H].
    - rewrite H in Htoken. destruct Htoken.
    - exact (Hno (H token Htoken)).
    - apply (keysInvariant_row w item (reachable_keysInvariant w Hw) Hin). }
  split; [exact filterAcceptsRow_keyed|].
  repeat split; reflexivity.
Qed.

(** The statement at the window with three tracks: the query "bravo" keeps
    the second track and rejects the first. *)
Lemma setFilterText_filterAcceptsRow_witness :
  In (trackItem (QStringLiteral "/music/alpha.mp3")) (model_ threeTracks)
  /\ filterAcceptsRow
       (tokens_ (setFilterText (QStringLiteral "bravo") threeTracks))
       (trackItem (QStringLiteral "/music/alpha.mp3")) = false
  /\ filterAcceptsRow
       (tokens_ (setFilterText (QStringLiteral "bravo") threeTracks))
       (trackItem (QStringLiteral "/music/bravo.mp3")) = true.
Proof.
  assert (Hin : In (trackItem (QStringLiteral "/music/alpha.mp3"))
                   (model_ threeTracks)) by (vm_compute; left; reflexivity).
  split; [exact Hin|]. split; [|vm_compute; reflexivity].
  apply (proj1 (proj2 (proj2 (proj2 setFilterText_filterAcceptsRow)))
           (QStringLiteral "bravo") threeTracks
           (trackItem (QStringLiteral "/music/alpha.mp3"))
           (QStringLiteral "bravo") threeTracks_reachable Hin).
  - vm_compute. left. reflexivity.
  - intros H. apply contains_spec in H. vm_compute in H. discriminate.
Defined.
